(* ===== verification/_CoqProject ===== *)
-Q . S2P
Prelude.v
Platform.v
Join.v
Lower.v
Heap.v
Interleave.v
Engine.v
Adapters.v
Compose.v
