(* ===== verification/Prelude.v ===== *)
(** * Verification of the archive library's formatting header (src/src/formatter.h)

    The program.  [formatter.h] is a private header of the archive library.
    It has two independent parts:

    - namespace [fmt] (lines 17-56): four specialisations of
      [fmt::formatter<T, wchar_t>], for [std::string], [std::exception],
      [std::error_code] and [std::filesystem::path].  Each one inherits from
      an already supported formatter (so it inherits [parse] and the parsed
      format specification) and its [format] reduces the value to the
      representation of its base and calls the base's [format].
    - namespace [NArchive] (lines 58-96): [join], which concatenates the
      elements of a container with a separator, and [towlower], which maps
      [::towlower] over a wide string.

    The files, in dependency order.

    - [Prelude] (this file): what the components share.  The [result] type
      that stands for "returns a value or throws" and the type [stateful] of
      computations on a state that return or throw, both with stdpp's monad
      notation and their sequencing lemmas; integral conversions of C++ at
      a given width and signedness ([wrap], [swrap], [int_cast],
      [in_range]) with their laws; the value of a byte; generic list lemmas
      on accumulating loops, [mjoin] and [fmap]; the tactics [cast_unfold]
      and [cast_lia] and the hint databases [wide] and [wide_rw]; string
      literals for examples ([narrow_lit], [wide_lit]).
    - [Platform]: the implementation-defined parameters the header depends
      on, as the class [Platform] (signedness of [char], width and signedness
      of [wchar_t] and [wint_t]) with its laws [PlatformOk] and instances for
      MSVC/x64 (the library's target), glibc/x86-64 and glibc/AArch64; the
      conversions [char_value], [to_wchar], [to_wint], [char_to_wchar]; the
      well-formedness predicate [wstring_ok] of a wide string.
    - [Join]: [NArchive::join] (lines 69-82).  [join_loop] is the [for] loop
      with its accumulator [r], [join] the whole function with its early
      return, for a container of [std::wstring], the element type the
      library uses.  Module [Machine] is the same function at the
      level of the iterator: a state (position of [begin], value of [r]),
      [init], [step], a fuelled [run], the reachability relation [reach],
      and [eventually], the predicate "the loop comes to a configuration
      that satisfies Q".  Module [Spec] holds the two contracts the function
      is compared with: the one spec.md states (separator after every
      element) and the conventional one (a separator between elements),
      which is how the doc comment of [join], lines 60-68, reads; neither
      is code, and neither counts as a translation of the source.
    - [Lower]: [NArchive::towlower] (lines 91-95).  The class [Locale] is
      the process-wide classification consulted by [::towlower];
      [towlower_lambda] is the lambda of line 93 with both conversions,
      [transform] is [std::transform] writing in place through an index, and
      [towlower] the function.  [LocaleOk] states what the theorems need of
      a locale; [c_locale] is the "C" locale and [latin1_locale] a locale
      of ISO 8859-1.
    - [Heap]: [NArchive::towlower] and [NArchive::join] on objects.  Wide
      strings live in a heap (a [gmap] from addresses to values); [copy_arg]
      is the by-value parameter of line 91, [transform_at] the loop of
      [std::transform] that reads and writes one code unit at a time through
      the iterators [first] and [d_first], [transform_call] the call of
      lines 92-93, [return_local] the [return s] of line 94 and
      [towlower_call] the function; [join_loop_at] is the loop of lines
      77-79 on the local object [r] and [join_call] the function on a
      container of objects and a separator passed by reference.  The
      operations [alloc], [free], [load], [store], [read] and
      [write] check every access: a use of an object that is not alive and a
      dereference outside the string are values of the type [fault].
      [accesses] lists the objects [join] reads, in order, and [first_dead]
      finds the first object of a list that is not alive.
    - [Interleave]: [towlower] in a process whose other threads change the
      global locale (spec.md, section 5).  Module [Sched]: an event is a
      call of the lambda by the thread inside [towlower] or a [setlocale]
      by another thread, [Sched.step] takes one event (a call is one
      iteration of the loop of [std::transform] under the locale in force),
      and [Sched.run] takes the events of a schedule in order.  Module
      [Pool] is the same with any number of threads inside [towlower], each
      with the string that is its own by-value parameter.
    - [Engine]: the interface to the formatting engine, which is not part of
      this repository: class [Engine] (parsed specification, format context,
      errors, [wparse], [wformat] of [formatter<std::wstring, wchar_t>]),
      its laws, a reference engine [ref_engine] with fill, alignment
      and width, which discharges the laws and makes the adapters
      executable.
    - [Adapters]: the four specialisations (lines 20-54) as instances of the
      class [Formatter], each defined from the instance of its base class
      exactly as the inheritance in the source; [widen] is
      [std::wstring(s.begin(), s.end())], [string_of_cstr] the conversion of
      [what()] to [std::string]; [render] is the engine's dispatch on the
      five renderable types and [reduce] the reduction table of spec.md.
    - [Compose]: [towlower] applied to the output of the narrow-string
      adapter.

    What the theorems show.

    - Join: the loop equals a closed form (first element, then every other
      element followed by the separator); the iterator machine terminates
      within [length c] steps with the value of [join], its reachable
      states satisfy the loop invariant, and from every reachable state the
      loop eventually returns the value of [join]; the length of the
      result; the result agrees with the contract of spec.md only for an
      empty sequence or an empty separator, and with the conventional
      contract up to a fused first pair and a trailing separator.
      [Machine.reach] is closed under [Machine.step], so the invariant is
      one of the machine.  Further lemmas: [join] of a snoc, and
      well-formedness of the code units is preserved.
    - Lower: [towlower] keeps the length and acts position by position;
      the in-place [transform] equals [fmap]; idempotence holds for every
      locale that satisfies [LocaleOk], two calls under one locale; in the
      "C" locale [towlower] adds 32 to the letters A to Z and nothing else,
      so the result has no upper-case ASCII letter and strings without one
      are fixed points.
    - Heap: the functions on objects refine the functions on values: on a
      live argument [towlower] never faults, returns [towlower] of the
      argument's value and leaves the heap as it was, and on a dead one it
      faults; on live elements and a live separator [join]
      never faults, returns [join] of their values and leaves the heap as it
      was, whether or not the separator is one of the elements; when no
      reference points at the address the local [r] receives, [join]
      faults at the first object it reads that is not alive, and it reads
      the separator only when the container has a second element.
    - Interleave: under every schedule each code unit is lower-cased under
      the locale in force at its own call, and the thread leaves the loop
      after [length ws] calls whatever the other threads do; the result is
      [towlower] under a locale [L0] when the locales in force agree with
      [L0] on the string (so when nobody changes the locale); with one
      change of the locale after [i] calls the code units before position
      [i] are lower-cased under the old locale and the others under the
      new one; while the locale is not changed each thread inside
      [towlower] returns [towlower] of its own string under every
      interleaving.
    - Adapters: every adapter returns exactly what the wide-string renderer
      returns on the reduced value, errors included; widening keeps the
      length, is the identity on ASCII on every platform, sign-extends bytes
      from 0x80 on platforms with a signed [char] (to a negative code unit
      where [wchar_t] is signed, to one above 0xFF00 where it is not), and
      is injective; the message of an exception ends at its first NUL.
    - Compose: in a locale of ISO 8859-1 a widened narrow string is
      lower-cased byte by byte where [char] is unsigned, and keeps its bytes
      from 0x80 where [char] is signed.

    Bounds and fuel.  Integers are unbounded [Z] values constrained by
    [in_range]; every conversion the source performs is an explicit
    [int_cast] at the platform's width.  [Machine.run] takes fuel; a fuel of
    [length c] is enough because every step advances the iterator by one, and
    the theorem that it returns is proved for every fuel [>= length c], with
    the converse that a smaller fuel leaves the machine running.
    [transform_from] and [transform_at] take the distance from [first] to
    [last] as their bound and are total; line 92 passes the length of the
    string, so the checked accesses of [transform_at] do not fault.
    Addresses are [positive] numbers and the
    address of a new object is [fresh] of the domain of the heap, so the
    heap is unbounded and allocation never fails.  The storage of a dead
    object may be given to a new one, as in C++; the theorem on the faults
    of [join] therefore assumes that no reference of the caller points at
    the address the local [r] receives.  A schedule of
    [Interleave] is a finite list of events; the thread needs [length ws] of
    its calls to finish, and the theorems hold for every schedule, finished
    or not.

    Interfaces.  The components meet at three classes, each with a laws
    class in [Prop] and at least one instance that discharges the laws:
    [Platform]/[PlatformOk] (instances [msvc_x64], [glibc_x86_64],
    [glibc_aarch64]), [Locale]/[LocaleOk] (instances [c_locale] and, where
    [wchar_t] has more than eight bits, [latin1_locale]),
    [Engine]/[EngineOk] (instance [ref_engine]; the delegation theorems are
    stated for every [Engine], without the laws).
    Theorems of a client are stated over the class and its laws; their
    witnesses apply them at the instances.

    Not modelled.  Failure of memory allocation ([std::bad_alloc] from the
    string constructors), moving from an argument ([towlower(std::move(x))],
    which leaves [x] in an unspecified state), the inside of the engine
    (scanning of format strings, argument binding, precision, dynamic
    widths, output iterators, the sequence parse-then-format of a
    replacement field: only the [parse] and [format] of the wide-string
    formatter are modelled, and [ref_engine] implements fill, alignment
    and width), instantiations of the template [join] at element types
    other than [std::wstring],
    locales other than "C" and ISO 8859-1, and what a data race inside
    [::towlower] or [setlocale] does ([Interleave] takes the calls of
    [::towlower] and the changes of the locale as indivisible events).  The
    header guard, the includes and the namespace lines (lines 1-19, 56-58,
    96-99) have no behaviour.

    Order of the work.  [Join], [Lower], [Heap], [Interleave] and
    [Adapters] are complete for the source as it is: every function of the
    header is modelled on values and on objects, with its result on every
    branch, the faults of the accesses included.  What could still be
    added extends the environment rather than the header: the
    handling of format strings by the engine, and further locales.  Both belong to libraries the header only calls. *)

From Stdlib Require Import ZArith Lia.
From Stdlib.Strings Require Import Byte.
From stdpp Require Import base tactics option list numbers strings.

#[local] Open Scope Z_scope.

(** ** Results: a value, or the exception that was thrown *)

Inductive result (E A : Type) : Type :=
| Ok (a : A)
| Err (e : E).
Arguments Ok {E A} a.
Arguments Err {E A} e.

#[export] Instance result_ret {E} : MRet (result E) := λ A a, Ok a.
#[export] Instance result_bind {E} : MBind (result E) :=
  λ A B f r, match r with Ok a => f a | Err e => Err e end.
#[export] Instance result_fmap {E} : FMap (result E) :=
  λ A B f r, match r with Ok a => Ok (f a) | Err e => Err e end.

(** ** Computations on a state that return or throw *)

(** A computation that reads and updates a state of type [St], and either
    returns a value with the new state or stops with an error. *)
Definition stateful (St E A : Type) : Type := St → result E (A * St).

#[export] Instance stateful_ret {St E} : MRet (stateful St E) :=
  λ A a st, Ok (a, st).
#[export] Instance stateful_bind {St E} : MBind (stateful St E) :=
  λ A B k m st, match m st with Ok (a, st') => k a st' | Err e => Err e end.

Definition throw {St E A} (e : E) : stateful St E A := λ _, Err e.

(** ** Integral conversions at a width *)

(** The value of [z] after conversion to an unsigned type of [bits] bits. *)
Definition wrap (bits z : Z) : Z := z mod 2 ^ bits.

(** The value of [z] after conversion to a signed type of [bits] bits. *)
Definition swrap (bits z : Z) : Z :=
  (z + 2 ^ (bits - 1)) mod 2 ^ bits - 2 ^ (bits - 1).

Definition int_cast (signed : bool) (bits z : Z) : Z :=
  if signed then swrap bits z else wrap bits z.

Definition int_min (signed : bool) (bits : Z) : Z :=
  if signed then - 2 ^ (bits - 1) else 0.

Definition int_max (signed : bool) (bits : Z) : Z :=
  if signed then 2 ^ (bits - 1) - 1 else 2 ^ bits - 1.

Definition in_range (signed : bool) (bits z : Z) : Prop :=
  int_min signed bits ≤ z ≤ int_max signed bits.

#[export] Instance in_range_dec signed bits z : Decision (in_range signed bits z).
Proof. unfold in_range. apply _. Defined.

(** ** Bytes and literals *)

Definition byte_unsigned (b : byte) : Z := Z.of_N (Byte.to_N b).

Definition is_ascii (b : byte) : Prop := byte_unsigned b < 128.

#[export] Instance is_ascii_dec b : Decision (is_ascii b).
Proof. unfold is_ascii. apply _. Defined.

#[export] Instance byte_eq_dec : EqDecision byte := Byte.byte_eq_dec.

Definition narrow_lit (s : string) : list byte := String.list_byte_of_string s.
Definition wide_lit (s : string) : list Z := byte_unsigned <$> narrow_lit s.

(** ** Tactics and hint databases *)

Create HintDb wide.
Create Rewrite HintDb wide_rw.

Ltac cast_unfold :=
  unfold in_range, int_cast, int_min, int_max, swrap, wrap in *.

(** The facts on powers of two that relate a width to its half. *)
Ltac pow2_facts b :=
  assert (2 ^ b = 2 * 2 ^ (b - 1))
    by (rewrite <- Z.pow_succ_r by lia; f_equal; lia);
  assert (0 < 2 ^ (b - 1)) by (apply Z.pow_pos_nonneg; lia).

(** Closes goals on conversions at a symbolic width [bits] with [0 < bits]
    in the context: the powers of two become atoms, every reduction
    [a mod m] gets its bounds, and [lia] finishes. *)
Ltac cast_lia :=
  cast_unfold;
  try match goal with H : 0 < ?b |- _ => is_var b; pow2_facts b end;
  repeat match goal with
    | |- context [if ?s then _ else _] => destruct s
    | H : context [if ?s then _ else _] |- _ => destruct s
    end;
  rewrite ?Z.mod_small by lia;
  repeat match goal with
    | |- context [?a mod ?m] =>
        lazymatch goal with
        | _ : 0 ≤ a mod m < m |- _ => fail
        | _ => pose proof (Z.mod_pos_bound a m ltac:(lia))
        end
    end;
  lia.

(** ** Sequencing *)

Section result_facts.
Context {E A B : Type}.
Implicit Types (m : result E A) (k : A → result E B).

Lemma result_bind_Ok m k b : m ≫= k = Ok b ↔ ∃ a, m = Ok a ∧ k a = Ok b.
Proof.
  destruct m as [a|e]; simpl; split; try done.
  - by exists a.
  - by intros (a' & [= <-] & ?).
  - by intros (a' & ? & ?).
Qed.

Lemma result_bind_Err m k e :
  m ≫= k = Err e ↔ m = Err e ∨ ∃ a, m = Ok a ∧ k a = Err e.
Proof.
  destruct m as [a|e']; simpl; split.
  - intros Hk. right. by exists a.
  - by intros [?|(a' & [= <-] & ?)].
  - intros [= ->]. by left.
  - by intros [[= ->]|(a' & ? & ?)].
Qed.

End result_facts.

Section stateful_facts.
Context {St E A B : Type}.
Implicit Types (m : stateful St E A) (k : A → stateful St E B) (st : St).

Lemma bind_ok m k st a st' : m st = Ok (a, st') → (m ≫= k) st = k a st'.
Proof. unfold mbind, stateful_bind. by intros ->. Qed.

Lemma bind_err m k st e : m st = Err e → (m ≫= k) st = Err e.
Proof. unfold mbind, stateful_bind. by intros ->. Qed.

End stateful_facts.

(** ** Laws of the conversions *)

Section casts.
Context (signed : bool) (bits : Z) (Hbits : 0 < bits).

Lemma int_cast_in_range z : in_range signed bits (int_cast signed bits z).
Proof using Hbits. cast_lia. Qed.

Lemma int_cast_id z : in_range signed bits z → int_cast signed bits z = z.
Proof using Hbits. intros. cast_lia. Qed.

Lemma int_cast_mod z : int_cast signed bits z mod 2 ^ bits = z mod 2 ^ bits.
Proof using Hbits.
  unfold int_cast, swrap, wrap. destruct signed.
  - rewrite Zminus_mod_idemp_l. f_equal. lia.
  - apply Z.mod_mod. apply Z.pow_nonzero; lia.
Qed.

Lemma int_cast_congr z1 z2 :
  z1 mod 2 ^ bits = z2 mod 2 ^ bits →
  int_cast signed bits z1 = int_cast signed bits z2.
Proof using Hbits.
  intros Hz. unfold int_cast, swrap, wrap. destruct signed; [|done].
  rewrite <- (Zplus_mod_idemp_l z1), <- (Zplus_mod_idemp_l z2), Hz. done.
Qed.

End casts.

(** A conversion through a type at least as wide loses nothing. *)
Lemma int_cast_cast s1 s2 b1 b2 z :
  0 < b1 ≤ b2 →
  int_cast s1 b1 (int_cast s2 b2 z) = int_cast s1 b1 z.
Proof.
  intros Hb. apply int_cast_congr; [lia|].
  rewrite <- (Z.mod_mod_divide (int_cast s2 b2 z) (2 ^ b2) (2 ^ b1)),
    <- (Z.mod_mod_divide z (2 ^ b2) (2 ^ b1)).
  - by rewrite int_cast_mod by lia.
  - exists (2 ^ (b2 - b1)). rewrite <- Z.pow_add_r by lia. f_equal. lia.
  - exists (2 ^ (b2 - b1)). rewrite <- Z.pow_add_r by lia. f_equal. lia.
Qed.

Lemma in_range_weaken s b1 b2 z :
  0 < b1 ≤ b2 → in_range s b1 z → in_range s b2 z.
Proof.
  intros Hb. cast_unfold.
  assert (2 ^ (b1 - 1) ≤ 2 ^ (b2 - 1)) by (apply Z.pow_le_mono_r; lia).
  assert (2 ^ b1 ≤ 2 ^ b2) by (apply Z.pow_le_mono_r; lia).
  destruct s; lia.
Qed.

(** ** Bytes *)

Lemma byte_unsigned_range b : 0 ≤ byte_unsigned b < 256.
Proof. unfold byte_unsigned. pose proof (Byte.to_N_bounded b). lia. Qed.

Lemma byte_unsigned_inj : Inj (=) (=) byte_unsigned.
Proof.
  intros b1 b2 Hb. unfold byte_unsigned in Hb.
  apply N2Z.inj in Hb.
  pose proof (Byte.of_to_N b1) as H1. rewrite Hb, Byte.of_to_N in H1.
  congruence.
Qed.

(** ** Lists *)

Section lists.
Context {A B : Type}.
Implicit Types (l : list A) (ls : list (list A)).

(** A loop that appends [g e] to an accumulator for each element. *)
Lemma foldl_app_acc (g : B → list A) (acc : list A) (es : list B) :
  foldl (λ r e, r ++ g e) acc es = acc ++ mjoin (g <$> es).
Proof.
  revert acc. induction es as [|e es IH]; intros acc; csimpl.
  - by rewrite app_nil_r.
  - by rewrite IH, <- app_assoc.
Qed.

Lemma length_mjoin_snoc (sep : list A) ls :
  length (mjoin ((λ e, e ++ sep) <$> ls)) =
    (sum_list (length <$> ls) + length ls * length sep)%nat.
Proof.
  induction ls as [|e ls IH]; csimpl; [done|].
  rewrite !length_app, IH. lia.
Qed.

Lemma mjoin_snoc_nil ls : mjoin ((λ e, e ++ []) <$> ls) = mjoin ls.
Proof. induction ls; csimpl; [done|]. by rewrite app_nil_r, IHls. Qed.

Lemma fmap_mjoin (f : A → B) ls : f <$> mjoin ls = mjoin (fmap f <$> ls).
Proof. induction ls; csimpl; [done|]. by rewrite fmap_app, IHls. Qed.

Lemma Forall_mjoin_snoc (P : A → Prop) (sep : list A) ls :
  Forall (Forall P) ls → Forall P sep →
  Forall P (mjoin ((λ e, e ++ sep) <$> ls)).
Proof.
  intros Hls Hsep. apply Forall_join, Forall_fmap.
  eapply Forall_impl; [done|]. intros e He. simpl. by apply Forall_app.
Qed.

(** A property of every image holds of every element of a mapped list. *)
Lemma Forall_fmap_total (P : B → Prop) (f : A → B) l :
  (∀ x, P (f x)) → Forall P (f <$> l).
Proof. intros Hf. by apply Forall_fmap, Forall_true. Qed.

End lists.

(** [wide] proves that code units are in range and that the strings built
    from well-formed strings are well formed; [wide_rw] computes lengths and
    pushes [fmap] through the list operations. *)
#[export] Hint Resolve int_cast_in_range : wide.
#[export] Hint Resolve Forall_mjoin_snoc Forall_fmap_total : wide.
#[export] Hint Resolve Forall_app_2 Forall_nil_2 Forall_cons_2 : wide.
#[export] Hint Rewrite @length_app @length_fmap @length_mjoin_snoc
  @length_replicate : wide_rw.
#[export] Hint Rewrite @app_nil_r @fmap_app @fmap_mjoin : wide_rw.
