(* ===== verification/Platform.v ===== *)
(** * Platform: the implementation-defined parameters of the header

    [formatter.h] converts between [char], [wchar_t] and [wint_t] (line 25:
    the range constructor of [std::wstring] converts each [char]; line 93:
    [::towlower] takes and returns [wint_t] and the result is cast back to
    [wchar_t]).  The widths and signedness of these types are
    implementation-defined; this file collects them in the class [Platform],
    gives the conversions their C++ meaning (an integral conversion keeps the
    value modulo [2 ^ bits]), and proves the facts on them the components
    share.  Strings are lists: [std::string] is a list of bytes (the object
    representation of its [char]s) and [std::wstring] a list of code-unit
    values. *)

From Stdlib Require Import ZArith Lia.
From Stdlib.Strings Require Import Byte.
From stdpp Require Import base tactics option list numbers.
From S2P Require Import Prelude.

#[local] Open Scope Z_scope.

(** ** Types *)

Abbreviation char := byte (only parsing).
Abbreviation wchar_t := Z (only parsing).
Abbreviation wint_t := Z (only parsing).

Module std.
Abbreviation string := (list byte) (only parsing).
Abbreviation wstring := (list Z) (only parsing).
End std.

(** ** The platform *)

Class Platform : Type := {
  (** whether plain [char] is a signed type *)
  char_signed : bool;
  (** width and signedness of [wchar_t] *)
  wchar_bits : Z;
  wchar_signed : bool;
  (** width and signedness of [wint_t] *)
  wint_bits : Z;
  wint_signed : bool;
}.

(** What the C and C++ standards guarantee of the three types: [wchar_t]
    holds every value of the basic character set, and [wint_t] is at least
    as wide as [wchar_t]. *)
Class PlatformOk (P : Platform) : Prop := {
  wchar_bits_min : 8 ≤ wchar_bits;
  wint_bits_min : wchar_bits ≤ wint_bits;
}.

(** MSVC on x64, the target of the library: [char] is signed, [wchar_t] and
    [wint_t] are [unsigned short]. *)
Definition msvc_x64 : Platform :=
  {| char_signed := true;
     wchar_bits := 16; wchar_signed := false;
     wint_bits := 16; wint_signed := false |}.

(** GCC with glibc on x86-64: [char] is signed, [wchar_t] is [int], [wint_t]
    is [unsigned int]. *)
Definition glibc_x86_64 : Platform :=
  {| char_signed := true;
     wchar_bits := 32; wchar_signed := true;
     wint_bits := 32; wint_signed := false |}.

(** GCC with glibc on AArch64: [char] is unsigned, [wchar_t] and [wint_t] are
    [unsigned int]. *)
Definition glibc_aarch64 : Platform :=
  {| char_signed := false;
     wchar_bits := 32; wchar_signed := false;
     wint_bits := 32; wint_signed := false |}.

Section conversions.
Context `{P : Platform}.

(** The value of a [char] whose object representation is [b]. *)
Definition char_value (b : char) : Z :=
  int_cast char_signed 8 (byte_unsigned b).

(** Conversion to [wchar_t]: implicit in the range constructor of line 25,
    [static_cast<wchar_t>] in line 93. *)
Definition to_wchar (z : Z) : wchar_t :=
  int_cast wchar_signed wchar_bits z.

(** Conversion to [wint_t]: the argument of [::towlower] in line 93. *)
Definition to_wint (z : Z) : wint_t :=
  int_cast wint_signed wint_bits z.

(** One element of [std::wstring(s.begin(), s.end())]. *)
Definition char_to_wchar (b : char) : wchar_t := to_wchar (char_value b).

(** A value a [wchar_t] can hold, and strings of such values. *)
Definition wchar_ok (c : wchar_t) : Prop :=
  in_range wchar_signed wchar_bits c.

Definition wstring_ok (s : std.wstring) : Prop := Forall wchar_ok s.

#[export] Instance wchar_ok_dec c : Decision (wchar_ok c).
Proof. unfold wchar_ok. apply _. Defined.

#[export] Instance wstring_ok_dec s : Decision (wstring_ok s).
Proof. unfold wstring_ok. apply _. Defined.

End conversions.

#[export] Instance msvc_x64_ok : PlatformOk msvc_x64.
Proof. split; simpl; lia. Qed.

#[export] Instance glibc_x86_64_ok : PlatformOk glibc_x86_64.
Proof. split; simpl; lia. Qed.

#[export] Instance glibc_aarch64_ok : PlatformOk glibc_aarch64.
Proof. split; simpl; lia. Qed.

(** ** Facts on the conversions *)

Section facts.
Context `{P : Platform} `{!PlatformOk P}.

Lemma wchar_bits_pos : 0 < wchar_bits.
Proof. pose proof wchar_bits_min. lia. Qed.

Lemma wint_bits_pos : 0 < wint_bits.
Proof. pose proof wchar_bits_min. pose proof wint_bits_min. lia. Qed.

Lemma to_wchar_ok z : wchar_ok (to_wchar z).
Proof. apply int_cast_in_range, wchar_bits_pos. Qed.

Lemma to_wchar_id c : wchar_ok c → to_wchar c = c.
Proof. apply int_cast_id, wchar_bits_pos. Qed.

(** [wchar_t] to [wint_t] and back is the identity on every [wchar_t],
    whatever the signedness of the two types. *)
Lemma to_wchar_to_wint c : wchar_ok c → to_wchar (to_wint c) = c.
Proof.
  intros Hc. unfold to_wchar, to_wint.
  rewrite int_cast_cast
    by (pose proof wchar_bits_pos; pose proof wint_bits_min; lia).
  by apply to_wchar_id.
Qed.

Lemma char_value_range b : -128 ≤ char_value b ≤ 255.
Proof.
  unfold char_value. pose proof (byte_unsigned_range b).
  pose proof (int_cast_in_range char_signed 8 ltac:(lia) (byte_unsigned b)) as H8.
  revert H8. unfold in_range, int_min, int_max. destruct char_signed; lia.
Qed.

Lemma char_value_ascii b : is_ascii b → char_value b = byte_unsigned b.
Proof.
  unfold is_ascii, char_value. intros Hb. pose proof (byte_unsigned_range b).
  apply int_cast_id; [lia|].
  unfold in_range, int_min, int_max. destruct char_signed; lia.
Qed.

(** A byte from 0x80 on a platform whose [char] is signed is negative. *)
Lemma char_value_high b :
  char_signed = true → ¬ is_ascii b → char_value b = byte_unsigned b - 256.
Proof.
  unfold is_ascii, char_value. intros -> Hb. pose proof (byte_unsigned_range b).
  unfold int_cast, swrap. change (2 ^ (8 - 1)) with 128. change (2 ^ 8) with 256.
  replace (byte_unsigned b + 128) with ((byte_unsigned b - 128) + 1 * 256) by lia.
  rewrite Z.mod_add, Z.mod_small by lia. lia.
Qed.

Lemma char_value_mod b : char_value b mod 256 = byte_unsigned b.
Proof.
  unfold char_value. change 256 with (2 ^ 8).
  rewrite int_cast_mod by lia. apply Z.mod_small. apply byte_unsigned_range.
Qed.

Lemma char_to_wchar_ok b : wchar_ok (char_to_wchar b).
Proof. apply to_wchar_ok. Qed.

Lemma char_to_wchar_ascii b : is_ascii b → char_to_wchar b = byte_unsigned b.
Proof.
  intros Hb. unfold char_to_wchar. rewrite char_value_ascii by done.
  apply to_wchar_id. unfold is_ascii in Hb. pose proof (byte_unsigned_range b).
  unfold wchar_ok. apply (in_range_weaken _ 8); [pose proof wchar_bits_min; lia|].
  unfold in_range, int_min, int_max. destruct wchar_signed; simpl; lia.
Qed.

(** The low eight bits of the code unit are the byte. *)
Lemma char_to_wchar_mod b : char_to_wchar b mod 256 = byte_unsigned b.
Proof.
  unfold char_to_wchar, to_wchar. change 256 with (2 ^ 8).
  rewrite <- (Z.mod_mod_divide _ (2 ^ wchar_bits)).
  - rewrite int_cast_mod by apply wchar_bits_pos.
    rewrite Z.mod_mod_divide; [apply char_value_mod|].
    exists (2 ^ (wchar_bits - 8)). rewrite <- Z.pow_add_r; [f_equal; lia| |lia].
    pose proof wchar_bits_min. lia.
  - exists (2 ^ (wchar_bits - 8)). rewrite <- Z.pow_add_r; [f_equal; lia| |lia].
    pose proof wchar_bits_min. lia.
Qed.

Lemma char_to_wchar_fmap_ascii (s : std.string) :
  Forall is_ascii s → char_to_wchar <$> s = byte_unsigned <$> s.
Proof.
  intros Hs. apply list_fmap_ext. intros i b Hb.
  apply char_to_wchar_ascii. by apply (Forall_lookup_1 _ _ _ _ Hs Hb).
Qed.

Lemma char_to_wchar_inj : Inj (=) (=) char_to_wchar.
Proof.
  intros b1 b2 Hb. apply byte_unsigned_inj.
  by rewrite <- !char_to_wchar_mod, Hb.
Qed.

(** Small values are values of every integer type that is wide enough:
    [wchar_t] and [wint_t] hold the values below [2 ^ k] when [wchar_t] has
    more than [k] bits, whatever their signedness.  The basic character set
    is the case of [k = 7], the values of a byte that of [k = 8]. *)
Lemma in_range_small signed bits k z :
  0 ≤ k < bits → 0 ≤ z < 2 ^ k → in_range signed bits z.
Proof.
  intros Hk Hz. unfold in_range, int_min, int_max.
  assert (2 ^ k ≤ 2 ^ (bits - 1)) by (apply Z.pow_le_mono_r; lia).
  assert (2 ^ (bits - 1) ≤ 2 ^ bits) by (apply Z.pow_le_mono_r; lia).
  destruct signed; lia.
Qed.

Lemma to_wchar_small k z :
  0 ≤ k < wchar_bits → 0 ≤ z < 2 ^ k → to_wchar z = z.
Proof. intros Hk Hz. by apply to_wchar_id, (in_range_small _ _ k). Qed.

Lemma to_wint_small k z :
  0 ≤ k < wchar_bits → 0 ≤ z < 2 ^ k → to_wint z = z.
Proof.
  intros Hk Hz. apply int_cast_id; [apply wint_bits_pos|].
  apply (in_range_small _ _ k); [|done]. pose proof wint_bits_min. lia.
Qed.

(** A [wchar_t] whose [wint_t] image is small is that value. *)
Lemma to_wint_small_inv k c :
  0 ≤ k < wchar_bits → wchar_ok c → 0 ≤ to_wint c < 2 ^ k → to_wint c = c.
Proof.
  intros Hk Hc Hz. rewrite <- (to_wchar_to_wint c) at 2 by done.
  by rewrite (to_wchar_small k).
Qed.

Lemma in_range_basic signed bits z :
  8 ≤ bits → 0 ≤ z < 128 → in_range signed bits z.
Proof. intros Hb Hz. apply (in_range_small _ _ 7); lia. Qed.

Lemma to_wchar_basic z : 0 ≤ z < 128 → to_wchar z = z.
Proof. pose proof wchar_bits_min. apply (to_wchar_small 7). lia. Qed.

Lemma to_wint_basic z : 0 ≤ z < 128 → to_wint z = z.
Proof. pose proof wchar_bits_min. apply (to_wint_small 7). lia. Qed.

Lemma to_wint_basic_inv c : wchar_ok c → 0 ≤ to_wint c < 128 → to_wint c = c.
Proof. pose proof wchar_bits_min. apply (to_wint_small_inv 7). lia. Qed.

(** ** Bytes from 0x80 *)

(** Where [char] is unsigned and [wchar_t] has more than eight bits, the
    code unit of a byte is the value of the byte. *)
Lemma char_to_wchar_unsigned b :
  char_signed = false → 9 ≤ wchar_bits → char_to_wchar b = byte_unsigned b.
Proof.
  intros Hc Hw. unfold char_to_wchar, char_value. rewrite Hc.
  pose proof (byte_unsigned_range b).
  rewrite (int_cast_id false 8)
    by (lia || (unfold in_range, int_min, int_max; simpl; lia)).
  apply (to_wchar_small 8); lia.
Qed.

(** Where [char] is signed, the code unit of a byte from 0x80 is not the
    value of any byte: it is negative in a signed [wchar_t] and above 255 in
    an unsigned one. *)
Lemma char_to_wchar_signed_high b :
  char_signed = true → 9 ≤ wchar_bits → ¬ is_ascii b →
  ¬ 0 ≤ char_to_wchar b < 256.
Proof.
  intros Hc Hw Hb. unfold char_to_wchar. rewrite char_value_high by done.
  pose proof (byte_unsigned_range b). unfold is_ascii in Hb.
  assert (2 ^ 9 ≤ 2 ^ wchar_bits) by (apply Z.pow_le_mono_r; lia).
  assert (2 ^ 8 ≤ 2 ^ (wchar_bits - 1)) by (apply Z.pow_le_mono_r; lia).
  assert (2 ^ wchar_bits = 2 * 2 ^ (wchar_bits - 1))
    by (rewrite <- Z.pow_succ_r by lia; f_equal; lia).
  unfold to_wchar, int_cast. destruct wchar_signed.
  - unfold swrap. rewrite Z.mod_small by lia. lia.
  - unfold wrap.
    replace (byte_unsigned b - 256)
      with (2 ^ wchar_bits - 256 + byte_unsigned b + (-1) * 2 ^ wchar_bits)
      by lia.
    rewrite Z.mod_add, Z.mod_small by lia. lia.
Qed.

End facts.

#[export] Hint Resolve to_wchar_ok char_to_wchar_ok : wide.
