(* ===== verification/Join.v ===== *)
(** * Join: [NArchive::join] (src/src/formatter.h, lines 69-82)

    [join_loop] and [join] translate the function as it is written: the
    early return on an empty container, the accumulator [r] initialised with
    the first element, and the loop that appends [*begin + sep] for every
    further element.  [Machine] is the same function one iterator operation
    at a time.  [Spec] holds the contracts the result is compared with. *)

From Stdlib Require Import ZArith Lia.
From stdpp Require Import base tactics option list numbers strings.
From S2P Require Import Prelude Platform.

(** ** The function *)

(** Lines 77-79: [for (; begin != end; ++begin) r += *begin + sep;] with
    [rest] the elements from [begin] to [end]. *)
Fixpoint join_loop (r : std.wstring) (rest : list std.wstring)
    (sep : std.wstring) : std.wstring :=
  match rest with
  | [] => r
  | e :: rest' => join_loop (r ++ (e ++ sep)) rest' sep
  end.

(** Lines 70-82: the early return of line 73, [r = *begin++] of line 76,
    the loop, and [return r]. *)
Definition join (c : list std.wstring) (sep : std.wstring) : std.wstring :=
  match c with
  | [] => []
  | e0 :: rest => join_loop e0 rest sep
  end.

(** ** The contracts *)

Module Spec.

(** spec.md, section 4.2: the separator appended after every element, the
    last included. *)
Definition join_trailing (c : list std.wstring) (sep : std.wstring)
    : std.wstring :=
  mjoin ((λ e, e ++ sep) <$> c).

(** The contract of the doc comment of [join] (lines 60-68): the elements
    joined using the separator, that is, the separator between consecutive
    elements, and an empty string for an empty container. *)
Fixpoint join_between (c : list std.wstring) (sep : std.wstring)
    : std.wstring :=
  match c with
  | [] => []
  | e :: c' =>
      match c' with
      | [] => e
      | _ :: _ => e ++ sep ++ join_between c' sep
      end
  end.

End Spec.

(** ** The function, one iterator operation at a time *)

Module Machine.

(** The local variables: [begin] as an index into the container ([end] is
    its length) and the accumulator [r]. *)
Record state : Type := State { begin_ : nat; r : std.wstring }.

Inductive config : Type :=
| Running (s : state)
| Returned (v : std.wstring).

(** Lines 71-76: the test [begin == end] with its early return, then
    [r = *begin++]. *)
Definition init (c : list std.wstring) : config :=
  match c !! 0%nat with
  | None => Returned []
  | Some e0 => Running (State 1 e0)
  end.

(** Lines 77-81: one test of [begin != end]; either the body and [++begin],
    or the [return r] that follows the loop. *)
Definition step (c : list std.wstring) (sep : std.wstring) (s : state)
    : config :=
  match c !! begin_ s with
  | None => Returned (r s)
  | Some e => Running (State (S (begin_ s)) (r s ++ (e ++ sep)))
  end.

Fixpoint run (fuel : nat) (c : list std.wstring) (sep : std.wstring)
    (k : config) : option std.wstring :=
  match k with
  | Returned v => Some v
  | Running s =>
      match fuel with
      | O => None
      | S fuel' => run fuel' c sep (step c sep s)
      end
  end.

Definition exec (fuel : nat) (c : list std.wstring) (sep : std.wstring)
    : option std.wstring :=
  run fuel c sep (init c).

(** The states the loop passes through. *)
Inductive reach (c : list std.wstring) (sep : std.wstring) : state → Prop :=
| reach_init e0 :
    c !! 0%nat = Some e0 → reach c sep (State 1 e0)
| reach_step s e :
    reach c sep s → c !! begin_ s = Some e →
    reach c sep (State (S (begin_ s)) (r s ++ (e ++ sep))).

(** The loop, started in a configuration, comes to a configuration that
    satisfies [Q] after finitely many tests of [begin != end]. *)
Inductive eventually (c : list std.wstring) (sep : std.wstring)
    (Q : config → Prop) : config → Prop :=
| eventually_now k : Q k → eventually c sep Q k
| eventually_step s :
    eventually c sep Q (step c sep s) → eventually c sep Q (Running s).

End Machine.

Implicit Types (c rest : list std.wstring) (sep e : std.wstring).

(** ** The closed form *)

(** The loop is a left fold of the container with the accumulator. *)
Lemma join_loop_foldl r rest sep :
  join_loop r rest sep = foldl (λ acc e, acc ++ (e ++ sep)) r rest.
Proof. revert r. induction rest as [|e rest IH]; intros r; simpl; auto. Qed.

Lemma join_loop_spec r rest sep :
  join_loop r rest sep = r ++ Spec.join_trailing rest sep.
Proof. rewrite join_loop_foldl. apply (foldl_app_acc (λ e, e ++ sep)). Qed.

Lemma join_cons e0 rest sep :
  join (e0 :: rest) sep = e0 ++ Spec.join_trailing rest sep.
Proof. apply join_loop_spec. Qed.

Lemma join_trailing_app c1 c2 sep :
  Spec.join_trailing (c1 ++ c2) sep =
    Spec.join_trailing c1 sep ++ Spec.join_trailing c2 sep.
Proof. unfold Spec.join_trailing. by rewrite fmap_app, join_app. Qed.

Lemma join_trailing_length c sep :
  length (Spec.join_trailing c sep) =
    (sum_list (length <$> c) + length c * length sep)%nat.
Proof. apply length_mjoin_snoc. Qed.

Lemma join_app_ne c1 c2 sep :
  c1 ≠ [] → join (c1 ++ c2) sep = join c1 sep ++ Spec.join_trailing c2 sep.
Proof.
  destruct c1 as [|e0 c1]; [done|]. intros _.
  by rewrite <- app_comm_cons, !join_cons, join_trailing_app, app_assoc.
Qed.

(** C1. [join] returns the first element followed by every further element
    with the separator appended to it, and the empty string for an empty
    container: the accumulating loop of lines 76-79 in closed form. *)
Theorem join_closed_form c sep :
  join c sep =
    match c with
    | [] => []
    | e0 :: rest => e0 ++ mjoin ((λ e, e ++ sep) <$> rest)
    end.
Proof. destruct c as [|e0 rest]; [done|]. apply join_cons. Qed.

(** ** The iterator machine *)

Lemma run_returned fuel c sep v :
  Machine.run fuel c sep (Machine.Returned v) = Some v.
Proof. by destruct fuel. Qed.

Lemma run_running fuel c sep s :
  (length c - Machine.begin_ s < fuel)%nat →
  Machine.run fuel c sep (Machine.Running s) =
    Some (join_loop (Machine.r s) (drop (Machine.begin_ s) c) sep).
Proof.
  revert s. induction fuel as [|fuel IH]; intros [b r] Hfuel; simpl in *; [lia|].
  unfold Machine.step; simpl.
  destruct (c !! b) as [e|] eqn:Hb.
  - rewrite IH by (apply lookup_lt_Some in Hb; simpl; lia).
    simpl. by rewrite (drop_S _ _ _ Hb).
  - rewrite run_returned. apply lookup_ge_None in Hb.
    by rewrite drop_ge by lia.
Qed.

(** C8. The iterator-level loop terminates: with fuel for [length c] tests of
    [begin != end] it returns, and what it returns is the value of [join]. *)
Theorem exec_total fuel c sep :
  (length c ≤ fuel)%nat → Machine.exec fuel c sep = Some (join c sep).
Proof.
  intros Hfuel. unfold Machine.exec, Machine.init.
  destruct c as [|e0 rest]; simpl in *.
  - apply run_returned.
  - rewrite run_running by (simpl; lia). done.
Qed.

Lemma exec_total_witness :
  Machine.exec 3 [wide_lit "a"; wide_lit "b"; wide_lit "c"] (wide_lit ", ")
    = Some (wide_lit "ab, c, ").
Proof. apply (exec_total 3); simpl; lia. Defined.


Lemma run_out_of_fuel fuel c sep s :
  (fuel ≤ length c - Machine.begin_ s)%nat →
  Machine.run fuel c sep (Machine.Running s) = None.
Proof.
  revert s. induction fuel as [|fuel IH]; intros [b r] Hfuel; simpl in *; [done|].
  unfold Machine.step; simpl.
  destruct (lookup_lt_is_Some_2 c b) as [e ->]; [lia|].
  apply IH. simpl. lia.
Qed.

(** C24. The fuel bound of the iterator machine is exact: it returns the value
    of [join] when the fuel is at least [length c], and is still running
    when the fuel is smaller. *)
Theorem exec_fuel_exact fuel c sep :
  Machine.exec fuel c sep =
    if decide (length c ≤ fuel)%nat then Some (join c sep) else None.
Proof.
  unfold Machine.exec, Machine.init.
  destruct c as [|e0 rest]; simpl; [by rewrite run_returned|].
  case_decide.
  - by rewrite run_running by (simpl; lia).
  - apply run_out_of_fuel. simpl. lia.
Qed.

(** ** The loop invariant *)

(** The reachable states are those the machine passes through: the state
    [init] starts in, and the state [step] continues with from a reachable
    one. *)
Lemma reach_init_running c sep s :
  Machine.init c = Machine.Running s → Machine.reach c sep s.
Proof.
  unfold Machine.init. destruct (c !! 0%nat) as [e0|] eqn:He0; [|done].
  intros [= <-]. by apply Machine.reach_init.
Qed.

Lemma reach_step_running c sep s s' :
  Machine.reach c sep s → Machine.step c sep s = Machine.Running s' →
  Machine.reach c sep s'.
Proof.
  unfold Machine.step. intros Hs.
  destruct (c !! Machine.begin_ s) as [e|] eqn:He; [|done].
  intros [= <-]. by apply Machine.reach_step.
Qed.

Lemma join_snoc c e sep :
  c ≠ [] → join (c ++ [e]) sep = join c sep ++ (e ++ sep).
Proof.
  intros Hc. rewrite join_app_ne by done.
  unfold Spec.join_trailing. csimpl. by rewrite app_nil_r.
Qed.

Lemma take_ne_nil {A} (l : list A) n : (0 < n)%nat → l ≠ [] → take n l ≠ [].
Proof. destruct l, n; simpl; (done || lia). Qed.

(** C10. Loop invariant, by induction on the reachable states: whenever the
    loop test is about to run, [begin] lies between the second element and
    [end], and [r] is the [join] of the elements before [begin]. *)
Theorem reach_invariant c sep s :
  Machine.reach c sep s →
  (1 ≤ Machine.begin_ s ≤ length c)%nat ∧
  Machine.r s = join (take (Machine.begin_ s) c) sep.
Proof.
  induction 1 as [e0 He0|s e Hs [Hb Hr] He]; simpl.
  - destruct c as [|e0' rest]; simplify_eq/=. split; [lia|].
    by destruct rest.
  - apply lookup_lt_Some in He as Hlt. split; [lia|].
    rewrite (take_S_r _ _ _ He), join_snoc, Hr; [done|].
    apply take_ne_nil; [lia|]. intros ->. simpl in *. lia.
Qed.

Lemma reach_invariant_witness :
  Machine.r (Machine.State 2 (wide_lit "ab,")) =
    join (take 2 [wide_lit "a"; wide_lit "b"; wide_lit "c"]) (wide_lit ",").
Proof.
  refine (proj2 (reach_invariant
    [wide_lit "a"; wide_lit "b"; wide_lit "c"] (wide_lit ",")
    (Machine.State 2 (wide_lit "ab,")) _)).
  apply (Machine.reach_step _ _ (Machine.State 1 (wide_lit "a")) (wide_lit "b")).
  - by apply Machine.reach_init.
  - reflexivity.
Defined.

(** ** Liveness *)

Lemma run_eventually fuel c sep k v :
  Machine.run fuel c sep k = Some v →
  Machine.eventually c sep (λ k', k' = Machine.Returned v) k.
Proof.
  revert k. induction fuel as [|fuel IH]; intros [s|v'] Hrun; simplify_eq/=.
  - by apply Machine.eventually_now.
  - apply Machine.eventually_step. by apply IH.
  - by apply Machine.eventually_now.
Qed.

Lemma eventually_run c sep k v :
  Machine.eventually c sep (λ k', k' = Machine.Returned v) k →
  ∃ fuel, Machine.run fuel c sep k = Some v.
Proof.
  induction 1 as [k ->|s _ [fuel IH]].
  - exists 0%nat. apply run_returned.
  - by exists (S fuel).
Qed.

(** What is left of the loop in a reachable state finishes the work: the
    loop on the elements from [begin] on, started with [r], gives the value
    of [join]. *)
Lemma reach_continues c sep s :
  Machine.reach c sep s →
  join_loop (Machine.r s) (drop (Machine.begin_ s) c) sep = join c sep.
Proof.
  induction 1 as [e0 He0|s e Hs IH He]; simpl.
  - by destruct c; simplify_eq/=.
  - by rewrite <- IH, (drop_S _ _ _ He).
Qed.

(** C11. Liveness: from every state the loop passes through it goes on to
    return, and returns the value of [join]; the return comes after at most
    [length c - begin + 1] further tests of [begin != end]. *)
Theorem reach_eventually_returns c sep s :
  Machine.reach c sep s →
  Machine.eventually c sep (λ k, k = Machine.Returned (join c sep))
    (Machine.Running s) ∧
  Machine.run (S (length c - Machine.begin_ s)) c sep (Machine.Running s)
    = Some (join c sep).
Proof.
  intros Hs.
  assert (Machine.run (S (length c - Machine.begin_ s)) c sep (Machine.Running s)
            = Some (join c sep)) as Hrun.
  { rewrite run_running by lia. by rewrite reach_continues. }
  split; [by eapply run_eventually|done].
Qed.

Lemma reach_eventually_returns_witness :
  Machine.eventually [wide_lit "a"; wide_lit "b"; wide_lit "c"] (wide_lit ",")
    (λ k, k = Machine.Returned
                (join [wide_lit "a"; wide_lit "b"; wide_lit "c"] (wide_lit ",")))
    (Machine.Running (Machine.State 2 (wide_lit "ab,"))) ∧
  Machine.run 2 [wide_lit "a"; wide_lit "b"; wide_lit "c"] (wide_lit ",")
    (Machine.Running (Machine.State 2 (wide_lit "ab,")))
    = Some (join [wide_lit "a"; wide_lit "b"; wide_lit "c"] (wide_lit ",")).
Proof.
  apply (reach_eventually_returns
    [wide_lit "a"; wide_lit "b"; wide_lit "c"] (wide_lit ",")
    (Machine.State 2 (wide_lit "ab,"))).
  apply (Machine.reach_step _ _ (Machine.State 1 (wide_lit "a")) (wide_lit "b")).
  - by apply Machine.reach_init.
  - reflexivity.
Defined.

(** ** Length *)

(** C16. The result holds every code unit of every element, and one separator
    for each element but the first. *)
Theorem join_length c sep :
  length (join c sep) =
    (sum_list (length <$> c) + (length c - 1) * length sep)%nat.
Proof.
  destruct c as [|e0 rest]; [done|].
  rewrite join_cons. unfold Spec.join_trailing.
  autorewrite with wide_rw. csimpl. lia.
Qed.

(** ** Comparison with the contracts *)

Lemma join_trailing_cons e rest sep :
  Spec.join_trailing (e :: rest) sep = e ++ sep ++ Spec.join_trailing rest sep.
Proof. unfold Spec.join_trailing. csimpl. by rewrite <- app_assoc. Qed.

Lemma join_trailing_nil_sep c : Spec.join_trailing c [] = mjoin c.
Proof. apply mjoin_snoc_nil. Qed.

(** With an empty separator [join] is plain concatenation of the elements,
    in the order of the container. *)
Lemma join_nil_sep c : join c [] = mjoin c.
Proof. destruct c; [done|]. by rewrite join_cons, join_trailing_nil_sep. Qed.

(** C7. The result is the one spec.md describes (a separator after every
    element) exactly when the container or the separator is empty.  For a
    container that is not empty, what spec.md describes is the result of the
    code with the separator inserted after the first element: that
    separator is what the code leaves out. *)
Theorem join_trailing_iff c sep :
  (join c sep = Spec.join_trailing c sep ↔ c = [] ∨ sep = []) ∧
  (∀ e0 rest, c = e0 :: rest →
     Spec.join_trailing c sep = e0 ++ sep ++ drop (length e0) (join c sep)).
Proof.
  split; [|intros e0 rest ->;
           by rewrite join_cons, join_trailing_cons, drop_app_length].
  destruct c as [|e0 rest]; [by split; [left|]|].
  rewrite join_cons, join_trailing_cons. split.
  - intros H%app_inv_head. right.
    apply (f_equal length) in H. rewrite length_app in H.
    apply nil_length_inv. lia.
  - by intros [ | -> ].
Qed.

Lemma join_trailing_between e rest sep :
  Spec.join_trailing (e :: rest) sep = Spec.join_between (e :: rest) sep ++ sep.
Proof.
  revert e. induction rest as [|e' rest IH]; intros e.
  - unfold Spec.join_trailing. csimpl. by rewrite app_nil_r.
  - rewrite join_trailing_cons, IH. simpl. by rewrite <- !app_assoc.
Qed.

(** C12. Against the conventional contract (separators between elements),
    the result for two or more elements has its first two elements fused and
    a trailing separator: it is the conventional join of the container with
    its first two elements concatenated, followed by the separator. *)
Theorem join_between_fused e0 e1 rest sep :
  join (e0 :: e1 :: rest) sep =
    Spec.join_between ((e0 ++ e1) :: rest) sep ++ sep.
Proof.
  rewrite join_cons, join_trailing_between.
  destruct rest; simpl; by rewrite <- !app_assoc.
Qed.

(** For at most one element the result is the conventional one: the
    divergence needs a second element. *)
Lemma join_between_short c sep :
  (length c ≤ 1)%nat → join c sep = Spec.join_between c sep.
Proof.
  destruct c as [|e0 [|e1 rest]]; simpl; intros; (done || lia).
Qed.

(** ** Structure of the result *)

(** [join] keeps strings well formed: when every code unit of the
    elements and of the separator is a value of [wchar_t], so is every code
    unit of the result. *)
Lemma join_ok `{P : Platform} c sep :
  Forall wstring_ok c → wstring_ok sep → wstring_ok (join c sep).
Proof.
  intros Hc Hsep. destruct c as [|e0 rest]; [constructor|].
  rewrite join_cons. apply Forall_cons in Hc as [He0 Hrest].
  unfold wstring_ok, Spec.join_trailing in *. auto with wide.
Qed.

(** Every element occurs in the result as a contiguous run of code
    units. *)
Lemma join_elem_infix c sep e :
  e ∈ c → ∃ l r, join c sep = l ++ e ++ r.
Proof.
  intros (c1 & c2 & ->)%list_elem_of_split.
  destruct (decide (c1 = [])) as [->|Hc1].
  - exists [], (Spec.join_trailing c2 sep). apply join_cons.
  - exists (join c1 sep), (sep ++ Spec.join_trailing c2 sep).
    by rewrite join_app_ne, join_trailing_cons.
Qed.

(** ** The examples of spec.md, section 8 *)

(** On the three examples of spec.md: the empty container gives the
    empty string as stated, but one element gives ["a"] where spec.md states
    ["a,"], and three elements give ["ab, c, "] where spec.md states
    ["a, b, c, "]. *)
Example join_spec_examples :
  join [] (wide_lit ",") = wide_lit "" ∧
  join [wide_lit "a"] (wide_lit ",") = wide_lit "a" ∧
  join [wide_lit "a"] (wide_lit ",") ≠ wide_lit "a," ∧
  join [wide_lit "a"; wide_lit "b"; wide_lit "c"] (wide_lit ", ")
    = wide_lit "ab, c, " ∧
  join [wide_lit "a"; wide_lit "b"; wide_lit "c"] (wide_lit ", ")
    ≠ wide_lit "a, b, c, ".
Proof. vm_compute. repeat split; congruence. Qed.
