(* ===== verification/Lower.v ===== *)
(** * Lower: [NArchive::towlower] (src/src/formatter.h, lines 91-95)

    The function takes its argument by value, overwrites every code unit
    with [static_cast<wchar_t>(::towlower(c))] through [std::transform], and
    returns the string.  [::towlower] consults the process-wide locale: it
    is the class [Locale] here, a parameter of every definition, with the
    "C" locale and a locale of ISO 8859-1 as instances. *)

From Stdlib Require Import ZArith Lia.
From stdpp Require Import base tactics option list numbers strings.
From S2P Require Import Prelude Platform.

#[local] Open Scope Z_scope.

(** ** The locale *)

(** [::towlower] of <cwctype>, as the current global locale defines it: a
    function on [wint_t]. *)
Class Locale : Type := { c_towlower : wint_t → wint_t }.

(** The mapping of the "C" locale: only the 26 upper-case letters of the
    basic character set (65 to 90) have a lower-case counterpart, 32 above. *)
Definition ascii_lower (c : Z) : Z :=
  if decide (65 ≤ c ≤ 90) then c + 32 else c.

Definition c_locale : Locale := {| c_towlower := ascii_lower |}.

(** The mapping of a locale whose character set is ISO 8859-1: beyond the
    letters A to Z, the letters from 0xC0 to 0xDE, but for the multiplication
    sign 0xD7, have a lower-case counterpart 32 above. *)
Definition latin1_lower (c : Z) : Z :=
  if decide (65 ≤ c ≤ 90 ∨ 192 ≤ c ≤ 222 ∧ c ≠ 215) then c + 32 else c.

Definition latin1_locale : Locale := {| c_towlower := latin1_lower |}.

(** ** The function *)

Section towlower.
Context `{P : Platform} `{L : Locale}.

(** Line 93: [[](wchar_t c) { return static_cast<wchar_t>(::towlower(c)); }].
    The argument is converted to [wint_t], the result cast to [wchar_t]. *)
Definition towlower_lambda (c : wchar_t) : wchar_t :=
  to_wchar (c_towlower (to_wint c)).

(** [std::transform(first, last, d_first, op)] with [d_first == first]: the
    loop that assigns [op] of [*first] to [*d_first] and advances both,
    on the string as an array, [i] the common position of [first] and
    [d_first] and [n] the distance to [last].  From [transform] the
    position stays inside the string; what a dereference past the end does
    is modelled in [Heap], where it is a fault. *)
Fixpoint transform_from (n i : nat) (op : wchar_t → wchar_t)
    (s : std.wstring) : std.wstring :=
  match n with
  | O => s
  | S n' =>
      match s !! i with
      | None => s
      | Some x => transform_from n' (S i) op (<[i := op x]> s)
      end
  end.

Definition transform (op : wchar_t → wchar_t) (s : std.wstring)
    : std.wstring :=
  transform_from (length s) 0 op s.

(** Lines 91-95. [s] is the function's own copy of the argument. *)
Definition towlower (s : std.wstring) : std.wstring :=
  transform towlower_lambda s.

End towlower.

(** What the theorems on case folding need of a locale on a platform: the
    counterpart of a character that [wchar_t] holds is itself held by
    [wchar_t], and a counterpart has no further counterpart. *)
Class LocaleOk (P : Platform) (L : Locale) : Prop := {
  c_towlower_fits c :
    wchar_ok c →
    to_wint (to_wchar (c_towlower (to_wint c))) = c_towlower (to_wint c);
  c_towlower_idemp x : c_towlower (c_towlower x) = c_towlower x;
}.

(** ** The in-place loop *)

Section transform.
Implicit Types (s : std.wstring) (op : Z → Z).

Lemma transform_from_spec n i op s :
  transform_from n i op s =
    take i s ++ (op <$> take n (drop i s)) ++ drop (i + n) s.
Proof.
  revert i s. induction n as [|n IH]; intros i s; simpl.
  - by rewrite Nat.add_0_r, take_drop.
  - destruct (s !! i) as [x|] eqn:Hi.
    + apply lookup_lt_Some in Hi as Hlt. rewrite IH.
      rewrite (take_S_r (<[i:=op x]> s) i (op x))
        by (by apply list_lookup_insert_eq).
      rewrite take_insert_ge, !drop_insert_lt by lia.
      rewrite (drop_S s x i Hi). csimpl. rewrite <- app_assoc. simpl.
      by rewrite Nat.add_succ_r.
    + apply lookup_ge_None in Hi.
      rewrite (drop_ge s i), (drop_ge s (i + S n)) by lia.
      by rewrite take_nil, take_ge, !app_nil_r by lia.
Qed.

Lemma transform_eq op s : transform op s = op <$> s.
Proof.
  unfold transform. rewrite transform_from_spec. simpl.
  by rewrite drop_0, firstn_all, drop_all, app_nil_r.
Qed.

(** C3. Writing through the same iterator that is read is sound: after [n]
    iterations of the in-place [std::transform] loop the first [n] code
    units are the images of the original ones and the rest is untouched, and
    the whole call leaves the image of every original code unit, as a pure
    [fmap] does. *)
Theorem transform_fmap op s (n : nat) :
  transform_from n 0 op s = (op <$> take n s) ++ drop n s ∧
  transform op s = op <$> s.
Proof.
  split; [|apply transform_eq].
  by rewrite transform_from_spec, drop_0.
Qed.

End transform.

(** ** The function on every locale *)

Section any_locale.
Context `{P : Platform} `{L : Locale}.
Implicit Types (s t : std.wstring) (c : list std.wstring).

Lemma towlower_fmap s : towlower s = towlower_lambda <$> s.
Proof. apply transform_eq. Qed.

(** C13. [towlower] keeps the number of code units and acts on each position
    independently: code unit [i] of the result is the lambda of line 93
    applied to code unit [i] of the argument, and positions past the end stay
    past the end. *)
Theorem towlower_lookup s (i : nat) :
  length (towlower s) = length s ∧
  towlower s !! i = towlower_lambda <$> s !! i.
Proof.
  rewrite towlower_fmap. split; [apply length_fmap|apply list_lookup_fmap].
Qed.

(** [towlower] distributes over concatenation: no code unit influences
    the image of another (no multi-unit case folding). *)
Lemma towlower_app s t : towlower (s ++ t) = towlower s ++ towlower t.
Proof. rewrite !towlower_fmap. by autorewrite with wide_rw. Qed.

(** Whatever the locale returns, the result is a well-formed wide
    string: the cast of line 93 brings every code unit back into the range
    of [wchar_t]. *)
Lemma towlower_ok `{!PlatformOk P} s : wstring_ok (towlower s).
Proof.
  rewrite towlower_fmap. unfold wstring_ok, towlower_lambda.
  auto with wide.
Qed.

End any_locale.

(** ** Idempotence *)

Section lawful_locale.
Context `{P : Platform} `{L : Locale} `{!PlatformOk P} `{!LocaleOk P L}.
Implicit Types (s : std.wstring).

Lemma towlower_lambda_idemp c :
  wchar_ok c → towlower_lambda (towlower_lambda c) = towlower_lambda c.
Proof.
  intros Hc. unfold towlower_lambda.
  by rewrite c_towlower_fits, c_towlower_idemp.
Qed.

(** C17. [towlower] is idempotent on well-formed strings, for every locale
    in which a lower-case counterpart fits [wchar_t] and has no further
    counterpart. *)
Theorem towlower_idemp s :
  wstring_ok s → towlower (towlower s) = towlower s.
Proof.
  intros Hs. rewrite !towlower_fmap, <- list_fmap_compose.
  apply Forall_fmap_ext_1. eapply Forall_impl; [exact Hs|].
  intros c Hc. by apply towlower_lambda_idemp.
Qed.

End lawful_locale.

(** ** The "C" locale *)

#[export] Instance c_locale_ok `{P : Platform} `{!PlatformOk P} :
  LocaleOk P c_locale.
Proof.
  split; simpl; unfold ascii_lower.
  - intros c Hc. case_decide.
    + by rewrite to_wchar_basic, to_wint_basic by lia.
    + by rewrite to_wchar_to_wint.
  - intros x. repeat case_decide; lia.
Qed.

Section c_locale.
Context `{P : Platform} `{!PlatformOk P}.
Implicit Types (s : std.wstring).

Lemma towlower_lambda_c c :
  wchar_ok c → towlower_lambda (L := c_locale) c = ascii_lower c.
Proof.
  intros Hc. unfold towlower_lambda. simpl. unfold ascii_lower.
  destruct (decide (65 ≤ c ≤ 90)) as [Hup|Hup].
  - rewrite to_wint_basic by lia. rewrite decide_True by done.
    apply to_wchar_basic. lia.
  - case_decide as Hx.
    + rewrite to_wint_basic_inv in Hx by (done || lia). lia.
    + by apply to_wchar_to_wint.
Qed.

Lemma towlower_c_eq s :
  wstring_ok s → towlower (L := c_locale) s = ascii_lower <$> s.
Proof.
  intros Hs. rewrite towlower_fmap. apply Forall_fmap_ext_1.
  eapply Forall_impl; [exact Hs|]. apply towlower_lambda_c.
Qed.

(** C21. In the "C" locale, on every platform, [towlower] adds 32 to the
    code units from 65 to 90 (the letters A to Z) and leaves every other
    code unit of a well-formed string as it is; so the result holds no
    upper-case letter of the basic character set, and a string without one
    is returned unchanged. *)
Theorem towlower_c_locale s :
  wstring_ok s →
  towlower (L := c_locale) s = ascii_lower <$> s ∧
  Forall (λ c, ¬ 65 ≤ c ≤ 90) (towlower (L := c_locale) s) ∧
  (Forall (λ c, ¬ 65 ≤ c ≤ 90) s → towlower (L := c_locale) s = s).
Proof.
  intros Hs. rewrite towlower_c_eq by done. split; [done|]. split.
  - apply Forall_fmap_total. intros c. unfold ascii_lower. case_decide; lia.
  - intros Hlow. rewrite <- (list_fmap_id s) at 2. apply Forall_fmap_ext_1.
    eapply Forall_impl; [exact Hlow|]. intros c Hc. unfold ascii_lower.
    by rewrite decide_False.
Qed.

End c_locale.

(** ** A locale of ISO 8859-1 *)

Section latin1.
Context `{P : Platform} `{!PlatformOk P} (Hwide : 9 ≤ wchar_bits).
Implicit Types (s : std.wstring).

Lemma latin1_lower_byte x : 0 ≤ x < 256 → 0 ≤ latin1_lower x < 256.
Proof. unfold latin1_lower. case_decide; lia. Qed.

Lemma latin1_lower_fixed x : ¬ 0 ≤ x < 256 → latin1_lower x = x.
Proof. unfold latin1_lower. intros Hx. case_decide; lia. Qed.

(** Where [wchar_t] has more than eight bits the locale satisfies the laws. *)
Lemma latin1_locale_ok : LocaleOk P latin1_locale.
Proof using Type*.
  split; simpl.
  - intros c Hc. destruct (decide (0 ≤ to_wint c < 256)) as [Hx|Hx].
    + pose proof (latin1_lower_byte _ Hx).
      by rewrite (to_wchar_small 8), (to_wint_small 8) by lia.
    + by rewrite latin1_lower_fixed, to_wchar_to_wint.
  - intros x. unfold latin1_lower. repeat case_decide; lia.
Qed.

Lemma towlower_lambda_latin1 c :
  wchar_ok c → towlower_lambda (L := latin1_locale) c = latin1_lower c.
Proof using Type*.
  intros Hc. unfold towlower_lambda. simpl.
  destruct (decide (0 ≤ to_wint c < 256)) as [Hx|Hx].
  - rewrite (to_wint_small_inv 8) by (done || lia).
    rewrite (to_wint_small_inv 8) in Hx by (done || lia).
    apply (to_wchar_small 8); [lia|]. by apply latin1_lower_byte.
  - rewrite latin1_lower_fixed, to_wchar_to_wint by done.
    destruct (decide (0 ≤ c < 256)) as [Hc'|Hc'].
    + rewrite (to_wint_small 8) in Hx by lia. lia.
    + by rewrite latin1_lower_fixed.
Qed.

Lemma towlower_latin1 s :
  wstring_ok s → towlower (L := latin1_locale) s = latin1_lower <$> s.
Proof using Type*.
  intros Hs. rewrite towlower_fmap. apply Forall_fmap_ext_1.
  eapply Forall_impl; [exact Hs|]. apply towlower_lambda_latin1.
Qed.

End latin1.

#[export] Instance latin1_msvc_ok : LocaleOk msvc_x64 latin1_locale.
Proof. by apply latin1_locale_ok. Qed.

#[export] Instance latin1_glibc_x86_64_ok : LocaleOk glibc_x86_64 latin1_locale.
Proof. by apply latin1_locale_ok. Qed.

#[export] Instance latin1_glibc_aarch64_ok :
  LocaleOk glibc_aarch64 latin1_locale.
Proof. by apply latin1_locale_ok. Qed.

(** Idempotence is about two calls under one locale: when the locale changes
    from "C" to ISO 8859-1 between them, the second call lower-cases what
    the first one left. *)
Example towlower_twice_two_locales :
  towlower (P := msvc_x64) (L := latin1_locale)
    (towlower (P := msvc_x64) (L := c_locale) [201])
  ≠ towlower (P := msvc_x64) (L := c_locale) [201].
Proof. vm_compute. congruence. Qed.

Lemma towlower_idemp_witness :
  towlower (P := msvc_x64) (L := c_locale)
    (towlower (P := msvc_x64) (L := c_locale) (wide_lit "Mod Organizer"))
  = towlower (P := msvc_x64) (L := c_locale) (wide_lit "Mod Organizer").
Proof.
  apply (@towlower_idemp msvc_x64 c_locale (@c_locale_ok msvc_x64 msvc_x64_ok)).
  compute_done.
Defined.

Lemma towlower_c_locale_witness :
  towlower (P := glibc_x86_64) (L := c_locale) (wide_lit "A.Zip")
    = ascii_lower <$> wide_lit "A.Zip" ∧
  Forall (λ c, ¬ 65 ≤ c ≤ 90)
    (towlower (P := glibc_x86_64) (L := c_locale) (wide_lit "A.Zip")) ∧
  (Forall (λ c, ¬ 65 ≤ c ≤ 90) (wide_lit "A.Zip") →
   towlower (P := glibc_x86_64) (L := c_locale) (wide_lit "A.Zip")
     = wide_lit "A.Zip").
Proof.
  apply (@towlower_c_locale glibc_x86_64 glibc_x86_64_ok (wide_lit "A.Zip")).
  compute_done.
Defined.

(** The examples of spec.md, section 8, hold in the "C" locale on the
    three platforms: the empty string is returned as it is and ["ABC"]
    becomes ["abc"]. *)
Example towlower_spec_examples :
  Forall (λ P : Platform,
    towlower (P := P) (L := c_locale) (wide_lit "") = wide_lit "" ∧
    towlower (P := P) (L := c_locale) (wide_lit "ABC") = wide_lit "abc")
    [msvc_x64; glibc_x86_64; glibc_aarch64].
Proof. repeat constructor. Qed.
