(* ===== verification/Heap.v ===== *)
(** * Heap: [NArchive::towlower] and [NArchive::join] on objects
    (src/src/formatter.h, lines 69-82 and 91-95)

    [Lower] and [Join] model the functions on values.  Here they run on
    objects: wide strings live in a heap and are named by their addresses.
    For [towlower] the parameter [s] is an object of its own that is
    copy-initialised from the argument, [std::transform] reads and writes
    the code units of that object one at a time through two iterators, and
    [return s] hands the value out and ends the lifetime of the parameter.
    For [join] the elements of the container and the separator are objects
    of the caller, passed by reference and only read, and [r] is a local
    object.  Every access is checked: the use of an object that is not alive
    and the dereference of an iterator outside the string are faults.  The
    theorems show that the functions never fault on live arguments, return
    what the functions on values return, and leave the heap of the caller as
    it was, also when the separator is one of the elements; and that on
    arguments that are not alive they fault at the first dead object they
    read (for [join], when no reference points at the address its local
    [r] receives). *)

From Stdlib Require Import ZArith Lia.
From stdpp Require Import base tactics option list numbers strings gmap.
From S2P Require Import Prelude Platform Join Lower.

#[local] Open Scope Z_scope.

(** ** Objects *)

(** The address of an object, and the heap: the wide strings that are alive,
    by address. *)
Abbreviation loc := positive (only parsing).
Abbreviation heap := (gmap positive std.wstring) (only parsing).

(** Undefined behaviour, made observable. *)
Inductive fault : Type :=
| Dangling (l : loc)             (* an object used outside its lifetime *)
| OutOfRange (l : loc) (i : nat) (* an iterator dereferenced past the end *).

(** A computation on the heap. *)
Abbreviation M := (stateful (gmap positive std.wstring) fault) (only parsing).

(** A new object with the given value, at an address that is not in use. *)
Definition alloc (ws : std.wstring) : M loc :=
  λ h, let l := fresh (dom h) in Ok (l, <[l := ws]> h).

(** The end of the lifetime of an object. *)
Definition free (l : loc) : M unit :=
  λ h, match h !! l with
       | Some _ => Ok ((), delete l h)
       | None => Err (Dangling l)
       end.

(** The value of an object. *)
Definition load (l : loc) : M std.wstring :=
  λ h, match h !! l with
       | Some ws => Ok (ws, h)
       | None => Err (Dangling l)
       end.

Definition store (l : loc) (ws : std.wstring) : M unit :=
  λ h, match h !! l with
       | Some _ => Ok ((), <[l := ws]> h)
       | None => Err (Dangling l)
       end.

(** [*it] as an rvalue, for the iterator at position [i] of the string at
    [l]. *)
Definition read (l : loc) (i : nat) : M wchar_t :=
  ws ← load l;
  match ws !! i with
  | Some c => mret c
  | None => throw (OutOfRange l i)
  end.

(** [*it = c]. *)
Definition write (l : loc) (i : nat) (c : wchar_t) : M unit :=
  ws ← load l;
  if decide (i < length ws)%nat then store l (<[i := c]> ws)
  else throw (OutOfRange l i).

(** [return s] of line 94, and [return r] of line 81: the value of the local
    object leaves the function and the lifetime of the object ends. *)
Definition return_local (s : loc) : M std.wstring :=
  r ← load s; free s;; mret r.

(** ** [towlower] *)

Section towlower_call.
Context `{P : Platform} `{L : Locale}.

(** Line 91: the parameter [std::wstring s], an object of its own that is
    copy-initialised from the argument. *)
Definition copy_arg (arg : loc) : M loc := ws ← load arg; alloc ws.

(** The loop of [std::transform(first, last, d_first, op)] on the string at
    [s]: [*d_first++ = op( *first++ )] while [first != last], with [n] the
    distance from [first] to [last]. *)
Fixpoint transform_at (n : nat) (s : loc) (first d_first : nat)
    (op : wchar_t → wchar_t) : M unit :=
  match n with
  | O => mret ()
  | S n' =>
      c ← read s first;
      write s d_first (op c);;
      transform_at n' s (S first) (S d_first) op
  end.

(** Lines 92-93: the call, from [std::begin(s)] to [std::end(s)], writing
    from [std::begin(s)]. *)
Definition transform_call (s : loc) (op : wchar_t → wchar_t) : M unit :=
  ws ← load s; transform_at (length ws) s 0 0 op.

(** Lines 91-95, called on the object at [arg]. *)
Definition towlower_call (arg : loc) : M std.wstring :=
  s ← copy_arg arg;
  transform_call s towlower_lambda;;
  return_local s.

End towlower_call.

(** ** [join] *)

(** Lines 77-79 with [r] a local object: [*begin + sep] is evaluated into a
    temporary and appended to [r]. *)
Fixpoint join_loop_at (r : loc) (rest : list loc) (sep : loc) : M unit :=
  match rest with
  | [] => mret ()
  | e :: rest' =>
      ve ← load e;
      vsep ← load sep;
      vr ← load r;
      store r (vr ++ (ve ++ vsep));;
      join_loop_at r rest' sep
  end.

(** Lines 70-82, called on a container whose elements are the objects at
    [c] and on the separator at [sep].  On an empty container the separator
    is not looked at. *)
Definition join_call (c : list loc) (sep : loc) : M std.wstring :=
  match c with
  | [] => mret []
  | e0 :: rest =>
      v0 ← load e0;
      r ← alloc v0;
      join_loop_at r rest sep;;
      return_local r
  end.

(** The objects at [c] are alive and have the values [vs]. *)
Definition alive (h : heap) (c : list loc) (vs : list std.wstring) : Prop :=
  Forall2 (λ l ws, h !! l = Some ws) c vs.

(** The objects [join] reads, in the order in which it reads them: the first
    element at line 76, then at every iteration of line 78 the element and
    the separator, the operands of [operator+] from left to right. *)
Definition accesses (c : list loc) (sep : loc) : list loc :=
  match c with
  | [] => []
  | e0 :: rest => e0 :: (rest ≫= λ e, [e; sep])
  end.

(** The first of the objects at [ls] that is not alive. *)
Fixpoint first_dead (h : heap) (ls : list loc) : option loc :=
  match ls with
  | [] => None
  | l :: ls' =>
      match h !! l with
      | Some _ => first_dead h ls'
      | None => Some l
      end
  end.

Create HintDb heap.

(** ** The operations on a given heap *)

Section ops.
Implicit Types (h : heap) (l : loc) (ws : std.wstring) (c : wchar_t).

Lemma load_ok h l ws : h !! l = Some ws → load l h = Ok (ws, h).
Proof. unfold load. by intros ->. Qed.

Lemma load_dangling h l : h !! l = None → load l h = Err (Dangling l).
Proof. unfold load. by intros ->. Qed.

Lemma read_ok h l ws (i : nat) c :
  h !! l = Some ws → ws !! i = Some c → read l i h = Ok (c, h).
Proof.
  intros Hl Hi. unfold read. rewrite (bind_ok _ _ _ _ _ (load_ok _ _ _ Hl)).
  by rewrite Hi.
Qed.

Lemma write_ok h l ws (i : nat) c :
  h !! l = Some ws → (i < length ws)%nat →
  write l i c h = Ok ((), <[l := <[i := c]> ws]> h).
Proof.
  intros Hl Hi. unfold write. rewrite (bind_ok _ _ _ _ _ (load_ok _ _ _ Hl)).
  rewrite decide_True by done. unfold store. by rewrite Hl.
Qed.

Lemma store_ok h l ws ws' :
  h !! l = Some ws → store l ws' h = Ok ((), <[l := ws']> h).
Proof. unfold store. by intros ->. Qed.

Lemma alloc_fresh h ws :
  ∃ l, h !! l = None ∧ alloc ws h = Ok (l, <[l := ws]> h).
Proof.
  exists (fresh (dom h)). split; [|done].
  apply not_elem_of_dom, is_fresh.
Qed.

Lemma free_insert h l ws :
  h !! l = None → free l (<[l := ws]> h) = Ok ((), h).
Proof.
  intros Hl. unfold free. by rewrite lookup_insert_eq, delete_insert_id.
Qed.

(** An object that is alive is not at an address that is free. *)
Lemma lookup_insert_fresh h l l' ws ws' :
  h !! l' = None → h !! l = Some ws → <[l' := ws']> h !! l = Some ws.
Proof.
  intros Hl' Hl. rewrite lookup_insert_ne; [done|]. by intros ->; simplify_eq.
Qed.

End ops.

#[export] Hint Resolve load_ok store_ok read_ok write_ok free_insert : heap.
#[export] Hint Resolve lookup_insert_fresh : heap.
#[export] Hint Extern 1 (_ !! _ = Some _) => apply lookup_insert_eq : heap.
#[export] Hint Extern 2 (_ < _)%nat => lia : heap.

(** One step of a computation whose first operation succeeds. *)
Ltac bind_step := erewrite bind_ok by eauto with heap.

(** ** The loop *)

Section towlower_call_facts.
Context `{P : Platform} `{L : Locale}.
Implicit Types (h : heap) (s arg : loc) (ws : std.wstring).
Implicit Types (op : wchar_t → wchar_t).

(** With both iterators at the same position and the range inside the
    string, the loop never faults and leaves in the object what the loop of
    [Lower] computes on its value. *)
Lemma transform_at_spec op (n : nat) s (i : nat) ws h :
  h !! s = Some ws → (i + n ≤ length ws)%nat →
  transform_at n s i i op h = Ok ((), <[s := transform_from n i op ws]> h).
Proof.
  revert i ws h. induction n as [|n IH]; intros i ws h Hs Hn; simpl.
  - by rewrite insert_id.
  - destruct (lookup_lt_is_Some_2 ws i) as [c Hc]; [lia|]. rewrite Hc.
    do 2 bind_step.
    rewrite (IH (S i) (<[i := op c]> ws)); auto with heap.
    + by rewrite insert_insert_eq.
    + rewrite length_insert. lia.
Qed.

Lemma transform_call_spec op s ws h :
  h !! s = Some ws →
  transform_call s op h = Ok ((), <[s := transform op ws]> h).
Proof.
  intros Hs. unfold transform_call. bind_step. by apply transform_at_spec.
Qed.

(** ** The call *)

Lemma copy_arg_spec arg ws h :
  h !! arg = Some ws →
  ∃ s, h !! s = None ∧ copy_arg arg h = Ok (s, <[s := ws]> h).
Proof.
  intros Harg. destruct (alloc_fresh h ws) as (s & Hs & Halloc).
  exists s. split; [done|]. unfold copy_arg. by bind_step.
Qed.

Lemma return_local_spec s ws h :
  h !! s = None → return_local s (<[s := ws]> h) = Ok (ws, h).
Proof. intros Hs. unfold return_local. by do 2 bind_step. Qed.

(** C4. The function on objects refines the function on values.  Called on
    a live object, it never faults, returns [towlower] of the value of the
    argument, and leaves the heap exactly as it was: the argument keeps its
    value, no other object changes, and the parameter is gone.  Called on an
    object that is not alive, it faults before it allocates anything. *)
Theorem towlower_call_spec arg h :
  towlower_call arg h =
    match h !! arg with
    | Some ws => Ok (towlower ws, h)
    | None => Err (Dangling arg)
    end.
Proof.
  unfold towlower_call. destruct (h !! arg) as [ws|] eqn:Harg.
  - destruct (copy_arg_spec arg ws h Harg) as (s & Hs & Hcopy).
    rewrite (bind_ok _ _ _ _ _ Hcopy).
    erewrite bind_ok by (apply transform_call_spec; auto with heap).
    rewrite insert_insert_eq. by apply return_local_spec.
  - apply bind_err, bind_err. by apply load_dangling.
Qed.

End towlower_call_facts.

(** ** [join] on objects *)

Section join_call_facts.
Implicit Types (h : heap) (r sep e : loc) (c rest : list loc).
Implicit Types (vs : list std.wstring) (vsep acc : std.wstring).

(** Loop invariant: the heap is the caller's heap with [r] added, and [r]
    holds what the loop of [Join] has accumulated. *)
Lemma join_loop_at_spec h r acc rest vs sep vsep :
  h !! r = None → alive h rest vs → h !! sep = Some vsep →
  join_loop_at r rest sep (<[r := acc]> h)
  = Ok ((), <[r := join_loop acc vs vsep]> h).
Proof.
  intros Hr Hrest Hsep. revert acc.
  induction Hrest as [|e ve rest vs He _ IH]; intros acc; simpl; [done|].
  do 4 bind_step. by rewrite insert_insert_eq, IH.
Qed.

(** C5. The function on objects refines the function on values.  When the
    elements of the container and the separator are alive, [join] never
    faults, returns [join] of their values, and leaves the heap exactly as
    it was; the separator may be one of the elements, and an element may
    occur twice. *)
Theorem join_call_spec h c vs sep vsep :
  alive h c vs → h !! sep = Some vsep →
  join_call c sep h = Ok (join vs vsep, h).
Proof.
  intros Hc Hsep. destruct Hc as [|e0 v0 rest vs He0 Hrest]; [done|]. simpl.
  bind_step.
  destruct (alloc_fresh h v0) as (r & Hr & Halloc).
  rewrite (bind_ok _ _ _ _ _ Halloc).
  erewrite bind_ok by (by apply join_loop_at_spec).
  by apply return_local_spec.
Qed.

(** The loop with any of the objects dead: it faults at the first dead
    object it reads, and otherwise runs as the loop of [Join] does. *)
Lemma join_loop_at_faults h r acc rest sep :
  r ∉ (rest ≫= λ e, [e; sep]) →
  join_loop_at r rest sep (<[r := acc]> h) =
    match first_dead h (rest ≫= λ e, [e; sep]) with
    | Some l => Err (Dangling l)
    | None =>
        Ok ((), <[r := join_loop acc (omap (h !!.) rest)
                           (default [] (h !! sep))]> h)
    end.
Proof.
  revert acc. induction rest as [|e rest IH]; intros acc Hr; [done|].
  csimpl in *. apply not_elem_of_cons in Hr as [Hre Hr].
  apply not_elem_of_cons in Hr as [Hrsep Hr].
  pose proof (lookup_insert_ne h r e acc Hre) as He.
  pose proof (lookup_insert_ne h r sep acc Hrsep) as Hsep.
  destruct (h !! e) as [ve|]; [|by apply bind_err, load_dangling].
  bind_step.
  destruct (h !! sep) as [vsep|]; [|by apply bind_err, load_dangling].
  do 3 bind_step. by rewrite insert_insert_eq, IH.
Qed.

(** C6. [join] on objects, faults included, for a call in which no
    reference points at the address that the local [r] is given (the
    hypothesis [fresh (dom h) ∉ accesses c sep]).  The function reads the
    first element, then for every further element the element and the
    separator; it faults at the first of these objects that is not alive,
    and when all of them are alive it returns [join] of their values and
    leaves the heap as it was.  The separator is read only when there is a
    second element.  The hypothesis is needed: the storage of a dead object
    may be given to a new one, so a reference to a dead object at the
    address of [r] reads [r] instead of faulting
    ([join_call_reused_storage]).  It holds in particular when every
    object that is read is alive, since an address in use is never given
    out. *)
Theorem join_call_faults h c sep :
  fresh (dom h) ∉ accesses c sep →
  join_call c sep h =
    match first_dead h (accesses c sep) with
    | Some l => Err (Dangling l)
    | None => Ok (join (omap (h !!.) c) (default [] (h !! sep)), h)
    end.
Proof.
  destruct c as [|e0 rest]; [done|]. intros [_ Hr]%not_elem_of_cons. simpl.
  destruct (h !! e0) as [v0|] eqn:He0; [|by apply bind_err, load_dangling].
  bind_step. erewrite bind_ok by done.
  pose proof (join_loop_at_faults h _ v0 rest sep Hr) as Hloop.
  destruct (first_dead h _); [by apply bind_err|].
  erewrite bind_ok by done.
  apply return_local_spec, not_elem_of_dom, is_fresh.
Qed.

End join_call_facts.

Lemma join_call_spec_witness :
  join_call [1%positive; 2%positive; 1%positive] 1%positive
    ({[ 1%positive := wide_lit "a"; 2%positive := wide_lit "b" ]}
       : gmap positive std.wstring)
  = Ok (join [wide_lit "a"; wide_lit "b"; wide_lit "a"] (wide_lit "a"),
        {[ 1%positive := wide_lit "a"; 2%positive := wide_lit "b" ]}).
Proof.
  apply (join_call_spec _ _ [wide_lit "a"; wide_lit "b"; wide_lit "a"]).
  - by repeat constructor.
  - reflexivity.
Defined.

Lemma join_call_faults_witness :
  join_call [1%positive; 7%positive; 1%positive] 9%positive
    ({[ 1%positive := wide_lit "a" ]} : gmap positive std.wstring)
  = Err (Dangling 7%positive).
Proof.
  etrans.
  - apply (join_call_faults {[ 1%positive := wide_lit "a" ]}
           [1%positive; 7%positive; 1%positive] 9%positive).
    compute_done.
  - reflexivity.
Defined.

(** Without the hypothesis of [join_call_faults]: the second element is
    dead and its address is the one the local [r] receives, so the loop
    reads [r] where it should fault, and the call returns. *)
Example join_call_reused_storage :
  fresh (dom ({[ 1%positive := wide_lit "a" ]} : gmap positive std.wstring))
    = 2%positive ∧
  join_call [1%positive; 2%positive] 1%positive
    ({[ 1%positive := wide_lit "a" ]} : gmap positive std.wstring)
  = Ok (wide_lit "aaa", {[ 1%positive := wide_lit "a" ]}).
Proof. by vm_compute. Qed.

(** A separator that is not alive is harmless for a container of one
    element, and a fault from the second element on. *)
Example join_call_dead_separator :
  join_call [1%positive] 9%positive
    ({[ 1%positive := wide_lit "a" ]} : gmap positive std.wstring)
  = Ok (wide_lit "a", {[ 1%positive := wide_lit "a" ]}) ∧
  join_call [1%positive; 1%positive] 9%positive
    ({[ 1%positive := wide_lit "a" ]} : gmap positive std.wstring)
  = Err (Dangling 9%positive).
Proof. by vm_compute. Qed.

(** The caller's string keeps its value, the result is lower case, and a
    second object of the caller is not touched. *)
Example towlower_call_example :
  towlower_call (P := msvc_x64) (L := c_locale) 1%positive
    {[ 1%positive := wide_lit "Data.BSA"; 2%positive := wide_lit "X" ]}
  = Ok (wide_lit "data.bsa",
        {[ 1%positive := wide_lit "Data.BSA"; 2%positive := wide_lit "X" ]}).
Proof. by vm_compute. Qed.
