(* ===== verification/Interleave.v ===== *)
(** * Interleave: [NArchive::towlower] while the global locale changes
    (src/src/formatter.h, lines 92-93)

    The lambda of line 93 calls [::towlower] once for every code unit, and
    every call reads the global locale of the process at the time of the
    call.  Between two calls another thread may run and change that locale.
    Module [Sched] is the loop of [std::transform] one call at a time, in a
    process whose other threads call [setlocale]: a schedule is the sequence
    of the events of the process, each one either the next call of the
    thread inside [towlower] or a change of the global locale, and the steps
    are taken in the order of the schedule, one at a time.  Module [Pool] is
    the same process with any number of threads inside [towlower], each on
    the string that is its own parameter.  The theorems say what the
    function returns under every schedule, when the result is the one of
    [Lower], what one change of the locale in the middle of the loop does,
    and that a thread inside [towlower] returns the result of [Lower]
    whatever the other threads inside [towlower] do, as long as the locale
    is not changed. *)

From Stdlib Require Import ZArith Lia.
From stdpp Require Import base tactics option list numbers strings.
From S2P Require Import Prelude Platform Lower.

#[local] Open Scope Z_scope.

Module Sched.

(** What happens next in the process. *)
Inductive event : Type :=
| Call                       (* the thread in [towlower] calls the lambda *)
| SetLocale (L : Locale)     (* another thread changes the global locale *).

(** The global locale, the position of the iterators [first] and [d_first],
    and the string [s]. *)
Record config : Type :=
  Config { global : Locale; first : nat; s : std.wstring }.

Section step.
Context `{P : Platform}.

(** One event.  A call is one iteration of the loop of [std::transform]
    under the locale that is in force; after the last iteration the thread
    has left the loop and takes no further step. *)
Definition step (k : config) (ev : event) : config :=
  match ev with
  | SetLocale L' => Config L' (first k) (s k)
  | Call =>
      match s k !! first k with
      | Some c =>
          Config (global k) (S (first k))
            (<[first k := towlower_lambda (L := global k) c]> (s k))
      | None => k
      end
  end.

(** The events of a schedule, in order. *)
Fixpoint run (evs : list event) (k : config) : config :=
  match evs with
  | [] => k
  | ev :: evs' => run evs' (step k ev)
  end.

End step.

(** The locale in force at each call of a schedule that starts under [L]. *)
Fixpoint calls (L : Locale) (evs : list event) : list Locale :=
  match evs with
  | [] => []
  | Call :: evs' => L :: calls L evs'
  | SetLocale L' :: evs' => calls L' evs'
  end.

(** The locale in force after the schedule. *)
Fixpoint final (L : Locale) (evs : list event) : Locale :=
  match evs with
  | [] => L
  | Call :: evs' => final L evs'
  | SetLocale L' :: evs' => final L' evs'
  end.

(** Code unit [i] lower-cased under locale [i] of the list; the code units
    beyond the list are left as they are. *)
Definition lower_with `{P : Platform} (Ls : list Locale) (ws : std.wstring)
    : std.wstring :=
  zip_with (λ L c, towlower_lambda (L := L) c) Ls ws ++ drop (length Ls) ws.

End Sched.

Module Pool.

(** What happens next in the process: thread [t] calls the lambda, or some
    thread changes the global locale. *)
Inductive event : Type :=
| Call (t : nat)
| SetLocale (L : Locale).

(** The global locale, and for each thread inside [towlower] the position of
    its iterators and its string [s], the parameter it was given by value. *)
Record config : Type :=
  Config { global : Locale; threads : list (nat * std.wstring) }.

Section step.
Context `{P : Platform}.

(** One event: a call is one iteration of the loop of the thread, under the
    locale in force; a thread that is not in the pool takes no step. *)
Definition step (k : config) (ev : event) : config :=
  match ev with
  | SetLocale L' => Config L' (threads k)
  | Call t =>
      match threads k !! t with
      | Some (i, ws) =>
          let k' := Sched.step (Sched.Config (global k) i ws) Sched.Call in
          Config (global k) (<[t := (Sched.first k', Sched.s k')]> (threads k))
      | None => k
      end
  end.

Fixpoint run (evs : list event) (k : config) : config :=
  match evs with
  | [] => k
  | ev :: evs' => run evs' (step k ev)
  end.

End step.

(** What thread [t] sees of an event: its own calls and the changes of the
    locale. *)
Definition view (t : nat) (ev : event) : option Sched.event :=
  match ev with
  | Call t' => if decide (t' = t) then Some Sched.Call else None
  | SetLocale L => Some (Sched.SetLocale L)
  end.

(** The number of calls a schedule gives to thread [t]. *)
Fixpoint calls_of (t : nat) (evs : list event) : nat :=
  match evs with
  | [] => 0
  | Call t' :: evs' => (if decide (t' = t) then 1 else 0) + calls_of t evs'
  | SetLocale _ :: evs' => calls_of t evs'
  end.

(** No event of the schedule changes the locale [L0]. *)
Definition quiet (L0 : Locale) (evs : list event) : Prop :=
  Forall (λ ev, match ev with SetLocale L => L = L0 | Call _ => True end) evs.

End Pool.

(** ** Lower-casing under a locale for each code unit *)

Section lower_with.
Context `{P : Platform}.
Implicit Types (L : Locale) (Ls : list Locale) (ws : std.wstring).

Lemma lower_with_nil ws : Sched.lower_with [] ws = ws.
Proof. unfold Sched.lower_with. simpl. by rewrite drop_0. Qed.

Lemma lower_with_cons L Ls c ws :
  Sched.lower_with (L :: Ls) (c :: ws)
  = towlower_lambda (L := L) c :: Sched.lower_with Ls ws.
Proof. done. Qed.

Lemma lower_with_done Ls : Sched.lower_with Ls [] = [].
Proof. unfold Sched.lower_with. by rewrite drop_nil, zip_with_nil_r. Qed.

(** When the locales agree with [L0] on the code units of the string, and
    there is one for every code unit, the string is lower-cased as under
    [L0]. *)
Lemma lower_with_agree L0 Ls ws :
  Forall (λ L, Forall (λ c, towlower_lambda (L := L) c
                            = towlower_lambda (L := L0) c) ws) Ls →
  (length ws ≤ length Ls)%nat →
  Sched.lower_with Ls ws = towlower (L := L0) ws.
Proof.
  rewrite towlower_fmap. intros HLs. revert ws HLs.
  induction Ls as [|L Ls IH]; intros [|c ws] HLs Hlen; simpl in *;
    try done; try lia.
  apply Forall_cons in HLs as [[Hc _]%Forall_cons HLs].
  rewrite lower_with_cons, Hc. f_equal. apply IH; [|lia].
  eapply Forall_impl; [exact HLs|]. by intros L' [_ ?]%Forall_cons.
Qed.

End lower_with.

(** ** The schedule *)

Section sched.
Context `{P : Platform}.
Implicit Types (L : Locale) (evs : list Sched.event) (ws : std.wstring).

(** The run of a schedule from any position of the loop. *)
Lemma run_from L (i : nat) ws evs :
  (i ≤ length ws)%nat →
  Sched.run evs (Sched.Config L i ws) =
    Sched.Config (Sched.final L evs)
      (i + length (Sched.calls L evs) `min` (length ws - i))
      (take i ws ++ Sched.lower_with (Sched.calls L evs) (drop i ws)).
Proof.
  revert L i ws. induction evs as [|[|L'] evs IH]; intros L i ws Hi; simpl.
  - rewrite lower_with_nil, take_drop. f_equal. lia.
  - unfold Sched.step; simpl. destruct (ws !! i) as [c|] eqn:Hc.
    + apply lookup_lt_Some in Hc as Hlt.
      rewrite IH by (rewrite length_insert; lia).
      rewrite length_insert.
      f_equal; [destruct (length ws - i)%nat eqn:?; lia|].
      rewrite (take_S_r _ _ (towlower_lambda (L := L) c))
        by (by apply list_lookup_insert_eq).
      rewrite take_insert_ge, drop_insert_lt by lia.
      rewrite (drop_S ws c i Hc), lower_with_cons.
      by rewrite <- app_assoc.
    + apply lookup_ge_None in Hc. rewrite IH by lia.
      rewrite !drop_ge, !lower_with_done by lia.
      f_equal; destruct (length ws - i)%nat eqn:?; lia.
  - by rewrite IH.
Qed.

(** C18. Under every schedule, after the events of the schedule the thread
    has made as many iterations as it was given calls, at most one for each
    code unit; code unit [i] of the string is the lambda applied to the
    original code unit under the locale that was in force at call [i], and
    the code units that were not reached are unchanged.  So the thread has
    left the loop exactly when it was given at least [length ws] calls,
    whatever the other threads did. *)
Theorem sched_result L0 evs ws :
  Sched.run evs (Sched.Config L0 0 ws) =
    Sched.Config (Sched.final L0 evs)
      (length (Sched.calls L0 evs) `min` length ws)
      (Sched.lower_with (Sched.calls L0 evs) ws).
Proof. rewrite run_from by lia. simpl. by rewrite drop_0, Nat.sub_0_r. Qed.

(** C19. When the locales in force at the calls of the thread agree with a
    locale [L0] on the code units of the string, and the thread has been
    given a call for every code unit, the result is [towlower] under [L0]:
    so it is when no other thread changes the locale, when the changes set
    the locale that was in force, and when the locales differ only on
    characters the string does not hold. *)
Theorem sched_agree L L0 evs ws :
  Forall (λ L', Forall (λ c, towlower_lambda (L := L') c
                             = towlower_lambda (L := L0) c) ws)
    (Sched.calls L evs) →
  (length ws ≤ length (Sched.calls L evs))%nat →
  Sched.s (Sched.run evs (Sched.Config L 0 ws)) = towlower (L := L0) ws.
Proof.
  intros Hagree Hlen. rewrite run_from by lia. simpl.
  rewrite drop_0. by apply lower_with_agree.
Qed.

End sched.

Lemma sched_agree_witness :
  Sched.s (Sched.run (P := msvc_x64)
             [Sched.Call; Sched.SetLocale latin1_locale; Sched.Call]
             (Sched.Config c_locale 0 (wide_lit "AB")))
  = towlower (P := msvc_x64) (L := c_locale) (wide_lit "AB").
Proof.
  apply (@sched_agree msvc_x64 c_locale c_locale
           [Sched.Call; Sched.SetLocale latin1_locale; Sched.Call]
           (wide_lit "AB")).
  - by repeat constructor.
  - simpl. lia.
Defined.

(** ** One change of the locale *)

Section one_change.
Context `{P : Platform}.
Implicit Types (L : Locale) (Ls : list Locale) (evs : list Sched.event).
Implicit Types (ws : std.wstring).

Lemma calls_app L evs1 evs2 :
  Sched.calls L (evs1 ++ evs2) =
    Sched.calls L evs1 ++ Sched.calls (Sched.final L evs1) evs2.
Proof.
  revert L. induction evs1 as [|[|L'] evs1 IH]; intros L; simpl; [done| |done].
  by rewrite IH.
Qed.

Lemma calls_replicate L (n : nat) :
  Sched.calls L (replicate n Sched.Call) = replicate n L.
Proof. induction n as [|n IH]; simpl; [done|]. by rewrite IH. Qed.

Lemma lower_with_app Ls1 Ls2 ws :
  (length Ls1 ≤ length ws)%nat →
  Sched.lower_with (Ls1 ++ Ls2) ws =
    Sched.lower_with Ls1 (take (length Ls1) ws)
    ++ Sched.lower_with Ls2 (drop (length Ls1) ws).
Proof.
  revert ws. induction Ls1 as [|L Ls1 IH]; intros ws Hlen.
  - by rewrite (lower_with_nil (take _ _)), drop_0.
  - destruct ws as [|c ws]; simpl in *; [lia|].
    by rewrite !lower_with_cons, IH by lia.
Qed.

Lemma lower_with_replicate L (n : nat) ws :
  (length ws ≤ n)%nat →
  Sched.lower_with (replicate n L) ws = towlower (L := L) ws.
Proof.
  intros Hn. apply lower_with_agree; [|by rewrite length_replicate].
  apply Forall_replicate. by apply Forall_true.
Qed.

(** C28. The function is not atomic with respect to the global locale.
    When another thread changes the locale from [L1] to [L2] after the
    thread has made [i] of its calls, the code units before position [i]
    come out lower-cased under [L1] and those from position [i] on under
    [L2], for every string, every two locales and every position: the
    result is [towlower] of the string under one of the locales only where
    the two agree on the other part. *)
Theorem sched_one_change L1 L2 (i : nat) ws :
  (i ≤ length ws)%nat →
  Sched.s (Sched.run
             (replicate i Sched.Call ++
              Sched.SetLocale L2 :: replicate (length ws - i) Sched.Call)
             (Sched.Config L1 0 ws))
  = towlower (L := L1) (take i ws) ++ towlower (L := L2) (drop i ws).
Proof.
  intros Hi. rewrite run_from by lia. simpl. rewrite drop_0, calls_app. simpl.
  rewrite !calls_replicate.
  rewrite lower_with_app; rewrite length_replicate; [|done].
  rewrite !lower_with_replicate; [done| |].
  - rewrite length_drop. lia.
  - rewrite length_take. lia.
Qed.

End one_change.

Lemma sched_one_change_witness :
  Sched.s (Sched.run (P := msvc_x64)
             [Sched.Call; Sched.SetLocale latin1_locale; Sched.Call]
             (Sched.Config c_locale 0 [201; 201]))
  = towlower (P := msvc_x64) (L := c_locale) [201]
    ++ towlower (P := msvc_x64) (L := latin1_locale) [201].
Proof.
  apply (@sched_one_change msvc_x64 c_locale latin1_locale 1 [201; 201]).
  simpl. lia.
Defined.

(** One change of the locale, from "C" to ISO 8859-1, between the two calls
    for a string of two capital E with acute accent: the result is
    [towlower] of the string under neither locale. *)
Example sched_not_atomic :
  let r := Sched.s (Sched.run (P := msvc_x64)
                      [Sched.Call; Sched.SetLocale latin1_locale; Sched.Call]
                      (Sched.Config c_locale 0 [201; 201])) in
  r = [201; 233] ∧
  r ≠ towlower (P := msvc_x64) (L := c_locale) [201; 201] ∧
  r ≠ towlower (P := msvc_x64) (L := latin1_locale) [201; 201].
Proof. vm_compute. repeat split; congruence. Qed.

(** ** Several threads inside [towlower] *)

Section pool.
Context `{P : Platform}.
Implicit Types (L : Locale) (evs : list Pool.event) (ws : std.wstring).
Implicit Types (k : Pool.config) (t : nat).

#[local] Arguments Sched.step : simpl never.

Lemma step_call_global (k : Sched.config) :
  Sched.global (Sched.step k Sched.Call) = Sched.global k.
Proof. unfold Sched.step. by destruct (Sched.s k !! Sched.first k). Qed.

(** A thread of the pool runs as the single thread of [Sched] on what it
    sees of the schedule. *)
Lemma pool_view evs k t (i : nat) ws :
  Pool.threads k !! t = Some (i, ws) →
  let k1 := Sched.run (omap (Pool.view t) evs)
              (Sched.Config (Pool.global k) i ws) in
  Pool.global (Pool.run evs k) = Sched.global k1 ∧
  Pool.threads (Pool.run evs k) !! t = Some (Sched.first k1, Sched.s k1).
Proof.
  revert k i ws. induction evs as [|[t'|L'] evs IH]; intros k i ws Ht; simpl.
  - done.
  - unfold Pool.step. case_decide as Heq; simplify_eq/=.
    + rewrite Ht. simpl.
      pose proof (step_call_global (Sched.Config (Pool.global k) i ws)) as Hg.
      destruct (Sched.step _ Sched.Call) as [g i1 ws1]. simpl in Hg. subst g.
      apply (IH (Pool.Config _ _)). simpl. apply list_lookup_insert_eq.
      by eapply lookup_lt_Some.
    + destruct (Pool.threads k !! t') as [[i' ws']|] eqn:Ht'; [|by apply IH].
      apply (IH (Pool.Config _ _)). simpl.
      by rewrite list_lookup_insert_ne.
  - by apply (IH (Pool.Config _ _)).
Qed.

Lemma calls_view L evs t :
  length (Sched.calls L (omap (Pool.view t) evs)) = Pool.calls_of t evs.
Proof.
  revert L. induction evs as [|[t'|L'] evs IH]; intros L; simpl; [done| |done].
  case_decide; simpl; by rewrite IH.
Qed.

Lemma calls_view_quiet L0 evs t :
  Pool.quiet L0 evs →
  Forall (λ L, L = L0) (Sched.calls L0 (omap (Pool.view t) evs)).
Proof.
  induction 1 as [|[t'|L] evs Hev _ IH]; simpl; [done| |by subst].
  case_decide; simpl; [by constructor|done].
Qed.

(** C20. [towlower] is safe to call from several threads at once as long as
    the locale is not changed (spec.md, section 5): under every schedule
    whose events leave the locale as it is, a thread that has been given a
    call for each of its code units has left the loop with [towlower] of
    its string, however its calls were interleaved with those of the other
    threads. *)
Theorem pool_safe L0 evs (ts : list (nat * std.wstring)) t ws :
  ts !! t = Some (0%nat, ws) →
  Pool.quiet L0 evs →
  (length ws ≤ Pool.calls_of t evs)%nat →
  Pool.threads (Pool.run evs (Pool.Config L0 ts)) !! t
  = Some (length ws, towlower (L := L0) ws).
Proof.
  intros Ht Hquiet Hcalls.
  destruct (pool_view evs (Pool.Config L0 ts) t 0 ws Ht) as [_ ->].
  simpl. rewrite run_from by lia. simpl. rewrite drop_0, calls_view.
  do 2 f_equal; [lia|]. apply lower_with_agree; [|by rewrite calls_view].
  eapply Forall_impl; [by apply calls_view_quiet|].
  intros L ->. by apply Forall_true.
Qed.

End pool.

Lemma pool_safe_witness :
  Pool.threads
    (Pool.run (P := msvc_x64)
       [Pool.Call 0; Pool.Call 1; Pool.Call 1; Pool.Call 0; Pool.Call 1]
       (Pool.Config c_locale [(0%nat, wide_lit "AB"); (0%nat, wide_lit "Xyz")]))
    !! 1%nat
  = Some (length (wide_lit "Xyz"),
          towlower (P := msvc_x64) (L := c_locale) (wide_lit "Xyz")).
Proof.
  apply (@pool_safe msvc_x64 c_locale
    [Pool.Call 0; Pool.Call 1; Pool.Call 1; Pool.Call 0; Pool.Call 1]
    [(0%nat, wide_lit "AB"); (0%nat, wide_lit "Xyz")] 1 (wide_lit "Xyz")).
  - reflexivity.
  - by repeat constructor.
  - simpl. lia.
Defined.
