(* ===== verification/Engine.v ===== *)
(** * Engine: the interface to the formatting engine

    The header plugs adapters into a formatting engine that is not part of
    the repository.  What the adapters use of it is the specialisation
    [formatter<std::wstring, wchar_t>]: its [parse], which reads a format
    specification and keeps the result in the formatter object, and its
    [format], which writes a wide string to the output of a format context
    under that specification.  The class [Engine] is this interface with
    the formatter's state made explicit; [EngineOk] states the behaviour of
    the default specification [{}]; [ref_engine] is a reference engine for
    the specifications spec.md names (fill, alignment, width), which
    discharges [EngineOk] and lets the adapters run. *)

From Stdlib Require Import ZArith Lia.
From stdpp Require Import base tactics option list numbers strings.
From S2P Require Import Prelude Platform.

#[local] Open Scope Z_scope.

(** ** The interface *)

Class Engine : Type := {
  (** the parsed format specification a formatter object holds *)
  format_specs : Type;
  (** the rest of the format string, as [parse] sees it *)
  parse_context : Type;
  (** the format context: the output sink and its position *)
  format_context : Type;
  (** what the engine throws *)
  format_error : Type;
  (** [formatter<std::wstring, wchar_t>::parse] *)
  wparse : parse_context → result format_error (format_specs * parse_context);
  (** [formatter<std::wstring, wchar_t>::format] *)
  wformat : format_specs → std.wstring → format_context →
            result format_error format_context;
  (** the specification of the replacement field [{}] *)
  plain : format_specs;
  (** the text written to the sink so far *)
  written : format_context → std.wstring;
}.

(** Under [{}] the wide-string renderer appends the string to the
    output. *)
Class EngineOk (E : Engine) : Prop := {
  wformat_plain ws ctx :
    ∃ ctx', wformat plain ws ctx = Ok ctx' ∧ written ctx' = written ctx ++ ws;
}.

(** ** A reference engine *)

Module Ref.

Inductive alignment : Type := AlignNone | AlignLeft | AlignRight | AlignCenter.

Record specs : Type := Specs { fill : Z; align : alignment; width : nat }.

(** The alignment characters [<], [>] and [^]. *)
Definition align_of (c : Z) : option alignment :=
  if decide (c = 60) then Some AlignLeft
  else if decide (c = 62) then Some AlignRight
  else if decide (c = 94) then Some AlignCenter
  else None.

(** [[fill]align]: an alignment character, optionally preceded by a fill
    character, which is any character but a brace. *)
Definition parse_align (s : std.wstring) : Z * alignment * std.wstring :=
  match s with
  | f :: a :: s' =>
      match align_of a, align_of f with
      | Some al, _ =>
          if decide (f = 123 ∨ f = 125) then (32, AlignNone, s)
          else (f, al, s')
      | None, Some al => (32, al, a :: s')
      | None, None => (32, AlignNone, s)
      end
  | [a] =>
      match align_of a with
      | Some al => (32, al, [])
      | None => (32, AlignNone, s)
      end
  | [] => (32, AlignNone, s)
  end.

(** [width]: a run of decimal digits. *)
Fixpoint parse_digits (acc : nat) (s : std.wstring) : nat * std.wstring :=
  match s with
  | c :: s' =>
      if decide (48 ≤ c ≤ 57)
      then parse_digits (10 * acc + Z.to_nat (c - 48)) s'
      else (acc, s)
  | [] => (acc, s)
  end.

(** The specification ends at the closing brace or at the end of the format
    string; anything else is refused. *)
Definition parse (s : std.wstring) : result string (specs * std.wstring) :=
  let '(f, al, s1) := parse_align s in
  let '(w, s2) := parse_digits 0 s1 in
  match s2 with
  | [] => Ok (Specs f al w, s2)
  | c :: _ => if decide (c = 125) then Ok (Specs f al w, s2)
              else Err "invalid format specifier"
  end.

(** The string under a specification: padded with the fill character to the
    width, on the right by default. *)
Definition pad (f : specs) (ws : std.wstring) : std.wstring :=
  let n := (width f - length ws)%nat in
  match align f with
  | AlignRight => replicate n (fill f) ++ ws
  | AlignCenter =>
      replicate (n / 2) (fill f) ++ ws ++ replicate (n - n / 2) (fill f)
  | AlignLeft | AlignNone => ws ++ replicate n (fill f)
  end.

End Ref.

(** The context of the reference engine is the text written so far, its
    errors are messages, and formatting appends the padded string. *)
Definition ref_engine : Engine :=
  {| format_specs := Ref.specs;
     parse_context := std.wstring;
     format_context := std.wstring;
     format_error := string;
     wparse := Ref.parse;
     wformat f ws ctx := Ok (ctx ++ Ref.pad f ws);
     plain := Ref.Specs 32 Ref.AlignNone 0;
     written := id |}.

(** ** The reference engine satisfies the interface *)

Lemma pad_length f ws :
  length (Ref.pad f ws) = (length ws `max` Ref.width f)%nat.
Proof.
  unfold Ref.pad. destruct (Ref.align f);
    rewrite ?length_app, ?length_replicate; try lia.
  pose proof (Nat.Div0.div_le_upper_bound (Ref.width f - length ws) 2
                (Ref.width f - length ws)%nat ltac:(lia)).
  lia.
Qed.

Lemma pad_plain ws : Ref.pad (plain (Engine := ref_engine)) ws = ws.
Proof. unfold Ref.pad; simpl. apply app_nil_r. Qed.

Lemma parse_plain rest :
  Ref.parse (125 :: rest) = Ok (plain (Engine := ref_engine), 125 :: rest).
Proof.
  unfold Ref.parse, Ref.parse_align.
  destruct rest as [|a rest]; [done|]. by destruct (Ref.align_of a).
Qed.

#[export] Instance ref_engine_ok : EngineOk ref_engine.
Proof.
  split; simpl. intros ws ctx. exists (ctx ++ ws). by rewrite pad_plain.
Qed.
