(* ===== verification/Adapters.v ===== *)
(** * Adapters: the four specialisations of [fmt::formatter<T, wchar_t>]
    (src/src/formatter.h, lines 20-54)

    Each specialisation is a struct that inherits from the formatter of the
    type it reduces to, and whose [format] reduces its argument and calls
    the [format] of the base.  Here a formatter is an instance of the class
    [Formatter]: its [parse] is the inherited one and its [format] is
    defined from the instance of the base, following the source line by
    line.  [render] is the dispatch of the engine on the type of the
    argument, and [reduce] the reduction table of spec.md, section 4.1. *)

From Stdlib Require Import ZArith Lia.
From Stdlib.Strings Require Import Byte.
From stdpp Require Import base tactics option list numbers strings.
From S2P Require Import Prelude Platform Engine.

#[local] Open Scope Z_scope.

(** ** The argument types *)

(** [std::exception]: [what()] returns a pointer to a NUL-terminated array
    of [char]; [what] holds the bytes at that pointer.  A list that holds no
    NUL stands for the array in which the NUL follows its last byte. *)
Record exception : Type := Exception { what : std.string }.

(** [std::error_code]: a value and a category, whose [message] virtual
    function gives the text of a value. *)
Record error_category : Type :=
  ErrorCategory { category_message : Z → std.string }.

Record error_code : Type :=
  ErrorCode { value : Z; category : error_category }.

(** [std::error_code::message]. *)
Definition message (ec : error_code) : std.string :=
  category_message (category ec) (value ec).

(** [std::filesystem::path] where [path::string_type] is [std::wstring], the
    only case in which line 52 compiles. *)
Record path : Type := Path { native : std.wstring }.

(** The implicit conversion of [ex.what()] to the [std::string const&] that
    the base's [format] takes (line 34): the bytes up to the first NUL. *)
Fixpoint string_of_cstr (p : std.string) : std.string :=
  match p with
  | [] => []
  | b :: p' => if decide (b = x00) then [] else b :: string_of_cstr p'
  end.

(** ** The formatters *)

(** A formatter for [T]: what the engine calls on a replacement field whose
    argument has type [T].  The parsed specification that the C++ object
    keeps between [parse] and [format] is passed explicitly. *)
Class Formatter `{E : Engine} (T : Type) : Type := {
  parse : parse_context → result format_error (format_specs * parse_context);
  format : format_specs → T → format_context →
           result format_error format_context;
}.

Section adapters.
Context `{P : Platform} `{E : Engine}.

(** [formatter<std::wstring, wchar_t>], which the engine provides. *)
#[export] Instance formatter_wstring : Formatter std.wstring :=
  {| parse := wparse; format := wformat |}.

(** Line 25: [std::wstring(s.begin(), s.end())], each [char] converted to
    [wchar_t]. *)
Definition widen (s : std.string) : std.wstring := char_to_wchar <$> s.

(** Lines 23-26. *)
Definition format_string (f : format_specs) (s : std.string)
    (ctx : format_context) : result format_error format_context :=
  format (T := std.wstring) f (widen s) ctx.

(** Lines 20-27: [formatter<std::string, wchar_t>], derived from
    [formatter<std::wstring, wchar_t>]. *)
#[export] Instance formatter_string : Formatter std.string :=
  {| parse := parse (T := std.wstring); format := format_string |}.

(** Lines 32-35. *)
Definition format_exception (f : format_specs) (ex : exception)
    (ctx : format_context) : result format_error format_context :=
  format (T := std.string) f (string_of_cstr (what ex)) ctx.

(** Lines 29-36: [formatter<std::exception, wchar_t>], derived from
    [formatter<std::string, wchar_t>]. *)
#[export] Instance formatter_exception : Formatter exception :=
  {| parse := parse (T := std.string); format := format_exception |}.

(** Lines 41-44. *)
Definition format_error_code (f : format_specs) (ec : error_code)
    (ctx : format_context) : result format_error format_context :=
  format (T := std.string) f (message ec) ctx.

(** Lines 38-45: [formatter<std::error_code, wchar_t>], derived from
    [formatter<std::string, wchar_t>]. *)
#[export] Instance formatter_error_code : Formatter error_code :=
  {| parse := parse (T := std.string); format := format_error_code |}.

(** Lines 50-53. *)
Definition format_path (f : format_specs) (p : path)
    (ctx : format_context) : result format_error format_context :=
  format (T := std.wstring) f (native p) ctx.

(** Lines 47-54: [formatter<std::filesystem::path, wchar_t>], derived from
    [formatter<std::wstring, wchar_t>]. *)
#[export] Instance formatter_path : Formatter path :=
  {| parse := parse (T := std.wstring); format := format_path |}.

(** ** The engine's view *)

(** A value of one of the five supported types. *)
Inductive renderable : Type :=
| RWide (ws : std.wstring)
| RNarrow (s : std.string)
| RException (ex : exception)
| RErrorCode (ec : error_code)
| RPath (p : path).

(** The engine formats an argument with the formatter of its type. *)
Definition render (f : format_specs) (v : renderable) (ctx : format_context)
    : result format_error format_context :=
  match v with
  | RWide ws => format f ws ctx
  | RNarrow s => format f s ctx
  | RException ex => format f ex ctx
  | RErrorCode ec => format f ec ctx
  | RPath p => format f p ctx
  end.

(** spec.md, section 4.1: the wide string each type reduces to. *)
Definition reduce (v : renderable) : std.wstring :=
  match v with
  | RWide ws => ws
  | RNarrow s => widen s
  | RException ex => widen (string_of_cstr (what ex))
  | RErrorCode ec => widen (message ec)
  | RPath p => native p
  end.

End adapters.

(** The inverse of widening on one code unit: its low eight bits. *)
Definition narrow_unit (c : wchar_t) : char :=
  default x00 (Byte.of_N (Z.to_N (c mod 256))).

Definition narrow (ws : std.wstring) : std.string := narrow_unit <$> ws.

(** ** Delegation *)

Section delegation.
Context `{P : Platform} `{E : Engine}.
Implicit Types (f : format_specs) (ctx : format_context) (v : renderable).

Lemma format_string_eq f (s : std.string) ctx :
  format f s ctx = wformat f (widen s) ctx.
Proof. done. Qed.

(** C2. Every adapter returns exactly what the wide-string renderer of the
    engine returns on the reduced representation of its argument, under the
    same specification and context: no adapter adds, drops or reorders
    output, and none catches or translates an error. *)
Theorem render_reduces f v ctx : render f v ctx = wformat f (reduce v) ctx.
Proof. by destruct v. Qed.

(** An exception and an error code with the same message text are rendered
    identically under every specification. *)
Lemma exception_error_code f (ex : exception) (ec : error_code) ctx :
  string_of_cstr (what ex) = message ec →
  format f ex ctx = format f ec ctx.
Proof.
  intros Hmsg. simpl. unfold format_exception, format_error_code.
  by rewrite Hmsg.
Qed.

End delegation.

(** ** The message of an exception *)

Section cstr.
Implicit Types (p m : std.string).

Lemma string_of_cstr_no_nul p : x00 ∉ string_of_cstr p.
Proof.
  induction p as [|b p IH]; simpl; [by apply not_elem_of_nil|].
  case_decide; [by apply not_elem_of_nil|].
  apply not_elem_of_cons. split; [done|exact IH].
Qed.

Lemma string_of_cstr_id m : x00 ∉ m → string_of_cstr m = m.
Proof.
  induction m as [|b m IH]; simpl; [done|].
  intros [Hb Hm]%not_elem_of_cons. rewrite decide_False by done.
  by rewrite IH.
Qed.

Lemma string_of_cstr_app m p :
  x00 ∉ m → string_of_cstr (m ++ x00 :: p) = m.
Proof.
  induction m as [|b m IH]; simpl; [done|].
  intros [Hb Hm]%not_elem_of_cons. rewrite decide_False by done.
  by rewrite IH.
Qed.

(** C25. The text of an exception ends at the first NUL of [what()]: the
    message taken from it holds no NUL, is a prefix of the bytes at the
    pointer, and is all of them when they hold no NUL. *)
Theorem string_of_cstr_spec p :
  (x00 ∉ string_of_cstr p) ∧
  (string_of_cstr p `prefix_of` p) ∧
  (x00 ∉ p → string_of_cstr p = p).
Proof.
  split; [apply string_of_cstr_no_nul|]. split; [|apply string_of_cstr_id].
  induction p as [|b p IH]; simpl; [done|].
  case_decide; [apply prefix_nil|by apply prefix_cons].
Qed.

End cstr.

(** C15. An exception whose [what()] holds a NUL is rendered as the text
    before it: what follows the NUL never reaches the engine. *)
Theorem format_exception_nul `{P : Platform} `{E : Engine}
    (f : format_specs) (m rest : std.string) (ctx : format_context) :
  x00 ∉ m →
  format_exception f (Exception (m ++ x00 :: rest)) ctx
  = format_string f m ctx.
Proof.
  intros Hm. unfold format_exception. simpl.
  by rewrite string_of_cstr_app.
Qed.

Lemma format_exception_nul_witness :
  render (P := msvc_x64) (E := ref_engine) plain
    (RException (Exception (narrow_lit "open" ++ x00 :: narrow_lit "secret"))) []
  = render (P := msvc_x64) (E := ref_engine) plain
      (RNarrow (narrow_lit "open")) [].
Proof.
  apply (@format_exception_nul msvc_x64 ref_engine
           (Ref.Specs 32 Ref.AlignNone 0) (narrow_lit "open")
           (narrow_lit "secret") []).
  compute_done.
Defined.

(** ** Widening *)

Section widen.
Context `{P : Platform}.
Implicit Types (s : std.string) (b : char).

(** Widening is one code unit for one byte: the result has the length
    of the argument, and code unit [i] is the conversion of byte [i] to
    [wchar_t]; no byte is decoded together with its neighbours. *)
Lemma widen_lookup s (i : nat) :
  length (widen s) = length s ∧ widen s !! i = char_to_wchar <$> s !! i.
Proof. split; [apply length_fmap|apply list_lookup_fmap]. Qed.

Context `{!PlatformOk P}.

(** C22. On ASCII (bytes below 0x80) widening gives the code unit with the
    value of the byte, on every platform. *)
Theorem widen_ascii s : Forall is_ascii s → widen s = byte_unsigned <$> s.
Proof. exact (char_to_wchar_fmap_ascii s). Qed.

Lemma char_to_wchar_high b :
  char_signed = true → wchar_signed = false → ¬ is_ascii b →
  char_to_wchar b = 2 ^ wchar_bits - 256 + byte_unsigned b.
Proof.
  intros Hc Hw Hb. unfold char_to_wchar. rewrite char_value_high by done.
  unfold to_wchar, int_cast, wrap. rewrite Hw.
  pose proof (byte_unsigned_range b). unfold is_ascii in Hb.
  assert (256 ≤ 2 ^ wchar_bits).
  { change 256 with (2 ^ 8). apply Z.pow_le_mono_r; [lia|apply wchar_bits_min]. }
  replace (byte_unsigned b - 256)
    with (2 ^ wchar_bits - 256 + byte_unsigned b + (-1) * 2 ^ wchar_bits) by lia.
  rewrite Z.mod_add by lia. apply Z.mod_small. lia.
Qed.

(** C9. Where [char] is signed and [wchar_t] unsigned (MSVC), a byte from
    0x80 is sign-extended: its code unit is the byte with every higher bit
    set (0xE9 becomes 0xFFE9), not the byte zero-extended. *)
Theorem widen_high s :
  char_signed = true → wchar_signed = false →
  Forall (λ b, ¬ is_ascii b) s →
  widen s = (λ b, 2 ^ wchar_bits - 256 + byte_unsigned b) <$> s.
Proof.
  intros Hc Hw Hs. apply Forall_fmap_ext_1. eapply Forall_impl; [exact Hs|].
  intros b Hb. by apply char_to_wchar_high.
Qed.

Lemma narrow_unit_char_to_wchar b : narrow_unit (char_to_wchar b) = b.
Proof.
  unfold narrow_unit. rewrite char_to_wchar_mod. unfold byte_unsigned.
  by rewrite N2Z.id, Byte.of_to_N.
Qed.

(** C14. Widening loses nothing: taking the low eight bits of every code
    unit gives the narrow string back. *)
Theorem narrow_widen s : narrow (widen s) = s.
Proof.
  unfold narrow, widen. rewrite <- list_fmap_compose.
  rewrite <- (list_fmap_id s) at 2. apply list_fmap_ext.
  intros _ b _. apply narrow_unit_char_to_wchar.
Qed.

(** Two narrow strings with the same widening are equal. *)
Lemma widen_inj s1 s2 : widen s1 = widen s2 → s1 = s2.
Proof. apply (list_fmap_eq_inj _ char_to_wchar_inj). Qed.

(** A widened string is well formed: every code unit is a value of
    [wchar_t]. *)
Lemma widen_ok s : wstring_ok (widen s).
Proof. unfold wstring_ok, widen. auto with wide. Qed.

End widen.

Lemma widen_ascii_witness :
  widen (P := msvc_x64) (narrow_lit "archive.7z") = wide_lit "archive.7z".
Proof.
  apply (@widen_ascii msvc_x64 msvc_x64_ok (narrow_lit "archive.7z")).
  compute_done.
Defined.

Lemma widen_high_witness :
  widen (P := msvc_x64) [xe9; xc3] = [65536 - 256 + 233; 65536 - 256 + 195].
Proof.
  apply (@widen_high msvc_x64 msvc_x64_ok [xe9; xc3]); compute_done.
Defined.

Lemma narrow_widen_witness :
  narrow (widen (P := glibc_x86_64) [xe9; x41]) = [xe9; x41].
Proof. apply (@narrow_widen glibc_x86_64 glibc_x86_64_ok). Defined.

(** ** Widening on every platform *)

Section widen_spec.
Context `{P : Platform} `{!PlatformOk P}.
Implicit Types (s : std.string) (b : char).

(** A byte from 0x80 in a signed [char] is negative; a signed [wchar_t]
    keeps its value and an unsigned one wraps it. *)
Lemma char_to_wchar_signed b :
  char_signed = true → ¬ is_ascii b →
  char_to_wchar b =
    byte_unsigned b - 256 + (if wchar_signed then 0 else 2 ^ wchar_bits).
Proof.
  intros Hc Hb. destruct wchar_signed eqn:Hw.
  - unfold char_to_wchar. rewrite char_value_high by done.
    rewrite Z.add_0_r. apply to_wchar_id. unfold wchar_ok. rewrite Hw.
    pose proof (byte_unsigned_range b). unfold is_ascii in Hb.
    assert (2 ^ 7 ≤ 2 ^ (wchar_bits - 1))
      by (apply Z.pow_le_mono_r; pose proof wchar_bits_min; lia).
    unfold in_range, int_min, int_max. lia.
  - rewrite char_to_wchar_high by done. lia.
Qed.

(** C27. Widening on every platform on which [wchar_t] has more than eight
    bits, byte by byte.  A byte below 0x80, and every byte where [char] is
    unsigned (AArch64), gives the code unit with the value of the byte.
    Where [char] is signed, a byte from 0x80 gives its value minus 256: a
    negative code unit where [wchar_t] is signed (x86-64 with glibc: 0xE9
    becomes -23) and that number modulo [2 ^ wchar_bits] where it is
    unsigned (MSVC: 0xFFE9). *)
Theorem widen_spec s :
  9 ≤ wchar_bits →
  widen s =
    (λ b, if decide (char_signed = true ∧ ¬ is_ascii b)
          then byte_unsigned b - 256
               + (if wchar_signed then 0 else 2 ^ wchar_bits)
          else byte_unsigned b) <$> s.
Proof.
  intros Hw. apply list_fmap_ext. intros _ b _.
  case_decide as Hb; [by apply char_to_wchar_signed; destruct Hb|].
  destruct char_signed eqn:Hc; [|by apply char_to_wchar_unsigned].
  apply char_to_wchar_ascii. destruct (decide (is_ascii b)); [done|].
  by destruct Hb.
Qed.

End widen_spec.

Lemma widen_spec_witness :
  widen (P := glibc_x86_64) [xe9; x41] = [233 - 256 + 0; 65].
Proof.
  apply (@widen_spec glibc_x86_64 glibc_x86_64_ok [xe9; x41]). simpl. lia.
Defined.

(** ** Formatting under an engine that satisfies the interface *)

Section lawful_engine.
Context `{P : Platform} `{E : Engine} `{!EngineOk E}.
Implicit Types (f : format_specs) (ctx : format_context) (v : renderable).

Context `{!PlatformOk P}.

(** C26. An exception or an error code whose message is ASCII is rendered
    under [{}] as exactly the characters of the message. *)
Theorem message_plain v (m : std.string) ctx :
  v = RException (Exception m) ∧ x00 ∉ m ∨
  (∃ ec, v = RErrorCode ec ∧ message ec = m) →
  Forall is_ascii m →
  ∃ ctx', render plain v ctx = Ok ctx' ∧
          written ctx' = written ctx ++ (byte_unsigned <$> m).
Proof.
  intros Hv Hm. rewrite <- (char_to_wchar_fmap_ascii m Hm).
  destruct Hv as [[-> Hnul]|(ec & -> & <-)]; simpl.
  - unfold format_exception. simpl. rewrite string_of_cstr_id by done.
    apply wformat_plain.
  - apply wformat_plain.
Qed.

End lawful_engine.

Lemma message_plain_witness :
  ∃ ctx', render (P := msvc_x64) (E := ref_engine) plain
            (RException (Exception (narrow_lit "bad archive"))) [] = Ok ctx' ∧
          written ctx' = written (Engine := ref_engine) []
                           ++ (byte_unsigned <$> narrow_lit "bad archive").
Proof.
  apply (@message_plain msvc_x64 ref_engine ref_engine_ok msvc_x64_ok
           (RException (Exception (narrow_lit "bad archive")))
           (narrow_lit "bad archive") []).
  - left. split; [done|compute_done].
  - compute_done.
Defined.

(** ** Formatting under the reference engine *)

(** Under the reference engine a narrow string is padded to the width
    counted in bytes: the output grows by the larger of the width and the
    number of bytes of the string, whatever characters the bytes encode. *)
Lemma ref_format_string_length `{P : Platform}
    (f : Ref.specs) (s : std.string) (ctx : std.wstring) :
  ∃ ctx', render (E := ref_engine) f (RNarrow s) ctx = Ok ctx' ∧
          length ctx' = (length ctx + length s `max` Ref.width f)%nat.
Proof.
  exists (ctx ++ Ref.pad f (widen s)). split; [done|].
  unfold widen. rewrite length_app, pad_length. by autorewrite with wide_rw.
Qed.

(** The replacement fields of spec.md, section 8, under the reference
    engine on MSVC: [{}] is parsed to the plain specification by every
    adapter; a path whose native text is ["/tmp/x"] is rendered as
    ["/tmp/x"], and as ["**/tmp/x"] under [{:*>8}]. *)
Example ref_examples :
  parse (E := ref_engine) (T := path) (wide_lit "}")
    = Ok (plain, wide_lit "}") ∧
  render (P := msvc_x64) (E := ref_engine) plain
    (RPath (Path (wide_lit "/tmp/x"))) []
    = Ok (wide_lit "/tmp/x") ∧
  (parse (E := ref_engine) (T := path) (wide_lit "*>8}") ≫= λ '(f, _),
     render (P := msvc_x64) (E := ref_engine) f
       (RPath (Path (wide_lit "/tmp/x"))) [])
    = Ok (wide_lit "**/tmp/x") ∧
  render (P := msvc_x64) (E := ref_engine) plain
    (RException (Exception (narrow_lit "bad archive"))) []
    = Ok (wide_lit "bad archive").
Proof. by vm_compute. Qed.
