(* ===== verification/Compose.v ===== *)
(** * Compose: the utilities on the output of the adapters

    The narrow-string adapter (src/src/formatter.h, line 25) and
    [NArchive::towlower] (lines 91-95) meet on wide strings: what the one
    produces the other can be given.  Whether lower-casing a widened narrow
    string lower-cases its letters above 0x7F depends on the signedness of
    [char]: the platforms of [Platform] differ. *)

From Stdlib Require Import ZArith Lia.
From Stdlib.Strings Require Import Byte.
From stdpp Require Import base tactics option list numbers strings.
From S2P Require Import Prelude Platform Lower Engine Adapters.

#[local] Open Scope Z_scope.

Section towlower_widen.
Context `{P : Platform} `{!PlatformOk P}.
Implicit Types (s : std.string).

(** C23. Lower-casing a widened narrow string in a locale of ISO 8859-1,
    where [wchar_t] has more than eight bits.  Where [char] is unsigned,
    every byte is lower-cased as a character of ISO 8859-1.  Where [char] is
    signed, the bytes from 0x80 are left as they are: their code units are
    sign-extended and are letters of no locale. *)
Theorem towlower_widen s :
  9 ≤ wchar_bits →
  (char_signed = false →
   towlower (L := latin1_locale) (widen s)
   = latin1_lower <$> (byte_unsigned <$> s)) ∧
  (char_signed = true → Forall (λ b, ¬ is_ascii b) s →
   towlower (L := latin1_locale) (widen s) = widen s).
Proof.
  intros Hw. rewrite towlower_latin1 by (done || apply widen_ok).
  unfold widen. split.
  - intros Hc. f_equal. apply list_fmap_ext. intros _ b _.
    by apply char_to_wchar_unsigned.
  - intros Hc Hs. rewrite <- (list_fmap_id (char_to_wchar <$> s)) at 2.
    apply Forall_fmap_ext_1, Forall_fmap. eapply Forall_impl; [exact Hs|].
    intros b Hb. simpl. apply latin1_lower_fixed.
    by apply char_to_wchar_signed_high.
Qed.

End towlower_widen.

Lemma towlower_widen_witness :
  (char_signed (Platform := msvc_x64) = false →
   towlower (P := msvc_x64) (L := latin1_locale)
     (widen (P := msvc_x64) [xc9; xc0])
   = latin1_lower <$> (byte_unsigned <$> [xc9; xc0])) ∧
  (char_signed (Platform := msvc_x64) = true →
   Forall (λ b, ¬ is_ascii b) [xc9; xc0] →
   towlower (P := msvc_x64) (L := latin1_locale)
     (widen (P := msvc_x64) [xc9; xc0])
   = widen (P := msvc_x64) [xc9; xc0]).
Proof.
  apply (@towlower_widen msvc_x64 msvc_x64_ok [xc9; xc0]). simpl. lia.
Defined.

(** The same two bytes, the letters E with acute accent and A with grave
    accent of ISO 8859-1, widened and lower-cased: on AArch64, where [char]
    is unsigned, they become the lower-case letters; with MSVC and on
    x86-64, where [char] is signed, they stay as they were widened. *)
Example towlower_widen_platforms :
  towlower (P := glibc_aarch64) (L := latin1_locale)
    (widen (P := glibc_aarch64) [xc9; xc0]) = [233; 224] ∧
  towlower (P := msvc_x64) (L := latin1_locale)
    (widen (P := msvc_x64) [xc9; xc0]) = [65481; 65472] ∧
  towlower (P := glibc_x86_64) (L := latin1_locale)
    (widen (P := glibc_x86_64) [xc9; xc0]) = [-55; -64].
Proof. by vm_compute. Qed.
